(** * Statistics aggregation over dataset entries

    A shallow embedding of [dsio/stats/stats.go] (package [stats]) together
    with the parts of [vals] and [dsio] it relies on, and the properties of
    the statistics tree and of the [BasicStatsGenerator] reader decorator. *)

From Stdlib Require Import ZArith Floats.PrimFloat Floats.SpecFloat Floats.FloatOps.
From stdpp Require Import gmap strings list fin_maps.

Set Warnings "-register-all,-inexact-float".
Set Default Proof Using "Type".

(* ===================================================================== *)
(** ** Go's [int] and [float64] *)
(* ===================================================================== *)

Module GoInt.
(** [int] is 64 bits wide on the platforms the package is built for. *)
Definition intBits : Z := 64.

(** [const maxUint = ^uint(0)] *)
Definition maxUint : Z := (2 ^ intBits - 1)%Z.
(** [const maxInt = int(maxUint >> 1)] *)
Definition maxInt : Z := Z.shiftr maxUint 1.
(** [const minInt = -maxInt - 1] *)
Definition minInt : Z := (- maxInt - 1)%Z.

(** Two's complement wrap-around of a mathematical integer into [int]. *)
Definition wrap (x : Z) : Z := ((x - minInt) mod 2 ^ intBits + minInt)%Z.

(** [x++] on an [int]. *)
Definition incr (x : Z) : Z := wrap (x + 1).
End GoInt.

Module Float64.
(** [float64(x)] for [x int]: the nearest binary64 value, ties to even. *)
Definition of_int (x : Z) : float :=
  SF2Prim (binary_normalize FloatOps.prec FloatOps.emax x 0 false).

(** [a > b] and [a < b] on [float64]; both are false when an operand is NaN. *)
Definition gt (a b : float) : bool := PrimFloat.ltb b a.
Definition lt (a b : float) : bool := PrimFloat.ltb a b.
End Float64.

(* ===================================================================== *)
(** ** Package [vals]: entries and the values they carry *)
(* ===================================================================== *)

(** The dynamic content of an [interface{}].  A [float32] is carried as the
    binary64 number it denotes, so that the conversion [float64(x)] is the
    identity on the carried number.  [VOther ty] stands for a value of any
    dynamic type the statistics code has no case for (for instance [int64]
    or [uint8]); [ty] is the name of that type. *)
Inductive GoValue : Type :=
| VNil
| VBool (b : bool)
| VInt (x : Z)
| VFloat32 (x : float)
| VFloat64 (x : float)
| VString (s : string)
| VMap (m : gmap string GoValue)
| VArray (l : list GoValue)
| VOther (ty : string).

(** [type Entry struct { Index int; Key string; Value interface{} }] *)
Record Entry : Type := mkEntry {
  Index : Z;
  Key : string;
  Value : GoValue
}.

(** Go's [error] interface, by the message it carries; [nil] is [None]. *)
Definition error : Type := string.

(** Result of a call that may fault at run time (a nil dereference). *)
Inductive outcome (A : Type) : Type :=
| Returned (a : A)
| Panicked.
Arguments Returned {A} a.
Arguments Panicked {A}.

(* ===================================================================== *)
(** ** Package [stats]: the leaf statistics nodes *)
(* ===================================================================== *)

Module nullStatGenerator.
Record t : Type := mk { count : Z }.

Definition AddEntry (nsg : t) (e : Entry) : t :=
  match Value e with
  | VNil => {| count := GoInt.incr (count nsg) |}
  | _ => nsg
  end.

Definition Stats (nsg : t) : GoValue :=
  VMap {[ "count" := VInt (count nsg) ]}.

Definition Close (nsg : t) : option error := None.
End nullStatGenerator.

Module numericStatGenerator.
Record t : Type := mk { typ : string; count : Z; min : float; max : float }.

(** The [switch x := e.Value.(type)] that converts to [float64]; [None] is
    the [default: return] branch. *)
Definition toFloat64 (v : GoValue) : option float :=
  match v with
  | VInt x => Some (Float64.of_int x)
  | VFloat32 x => Some x
  | VFloat64 x => Some x
  | _ => None
  end.

Definition AddEntry (nsg : t) (e : Entry) : t :=
  match toFloat64 (Value e) with
  | None => nsg
  | Some v =>
      let nsg := {| typ := typ nsg; count := GoInt.incr (count nsg);
                    min := min nsg; max := max nsg |} in
      let nsg := if Float64.gt v (max nsg)
                 then {| typ := typ nsg; count := count nsg;
                         min := min nsg; max := v |}
                 else nsg in
      if Float64.lt v (min nsg)
      then {| typ := typ nsg; count := count nsg; min := v; max := max nsg |}
      else nsg
  end.

Definition Stats (nsg : t) : GoValue :=
  if decide (count nsg = 0%Z)
  then VMap {[ "count" := VInt 0 ]}
  else VMap {[ "count" := VInt (count nsg);
               "min" := VFloat64 (min nsg);
               "max" := VFloat64 (max nsg) ]}.

Definition Close (nsg : t) : option error := None.
End numericStatGenerator.

Module stringStatGenerator.
Record t : Type := mk { count : Z; minLength : Z; maxLength : Z }.

(** [len(str)]: the number of bytes of the string. *)
Definition len (str : string) : Z := Z.of_nat (String.length str).

Definition AddEntry (ssg : t) (e : Entry) : t :=
  match Value e with
  | VString str =>
      let ssg := {| count := GoInt.incr (count ssg);
                    minLength := minLength ssg; maxLength := maxLength ssg |} in
      let ssg := if (len str <? minLength ssg)%Z
                 then {| count := count ssg; minLength := len str;
                         maxLength := maxLength ssg |}
                 else ssg in
      if (len str >? maxLength ssg)%Z
      then {| count := count ssg; minLength := minLength ssg;
              maxLength := len str |}
      else ssg
  | _ => ssg
  end.

Definition Stats (ssg : t) : GoValue :=
  if decide (count ssg = 0%Z)
  then VMap {[ "count" := VInt 0 ]}
  else VMap {[ "count" := VInt (count ssg);
               "minLength" := VInt (minLength ssg);
               "maxLength" := VInt (maxLength ssg) ]}.

Definition Close (ssg : t) : option error := None.
End stringStatGenerator.

Module boolStatGenerator.
Record t : Type := mk { count : Z; trueCount : Z; falseCount : Z }.

Definition AddEntry (bsg : t) (e : Entry) : t :=
  match Value e with
  | VBool b =>
      let bsg := {| count := GoInt.incr (count bsg);
                    trueCount := trueCount bsg; falseCount := falseCount bsg |} in
      if b
      then {| count := count bsg; trueCount := GoInt.incr (trueCount bsg);
              falseCount := falseCount bsg |}
      else {| count := count bsg; trueCount := trueCount bsg;
              falseCount := GoInt.incr (falseCount bsg) |}
  | _ => bsg
  end.

Definition Stats (bsg : t) : GoValue :=
  VMap {[ "count" := VInt (count bsg);
          "trueCount" := VInt (trueCount bsg);
          "falseCount" := VInt (falseCount bsg) ]}.

Definition Close (bsg : t) : option error := None.
End boolStatGenerator.

(* ===================================================================== *)
(** ** The statistics tree *)
(* ===================================================================== *)

(** A non-nil [statGenerator] interface value: one constructor per
    implementing type.  [objectStatGenerator] holds
    [children map[string]statGenerator], [arrayStatGenerator] holds
    [children []statGenerator]. *)
Inductive statGenerator : Type :=
| nullSG (g : nullStatGenerator.t)
| numericSG (g : numericStatGenerator.t)
| stringSG (g : stringStatGenerator.t)
| boolSG (g : boolStatGenerator.t)
| objectSG (children : gmap string statGenerator)
| arraySG (children : list statGenerator).

Definition newStatGenerator (val : GoValue) : statGenerator :=
  match val with
  | VFloat64 _ | VFloat32 _ =>
      numericSG {| numericStatGenerator.typ := "number";
                   numericStatGenerator.count := 0;
                   numericStatGenerator.max := Float64.of_int GoInt.minInt;
                   numericStatGenerator.min := Float64.of_int GoInt.maxInt |}
  | VInt _ =>
      numericSG {| numericStatGenerator.typ := "integer";
                   numericStatGenerator.count := 0;
                   numericStatGenerator.max := Float64.of_int GoInt.minInt;
                   numericStatGenerator.min := Float64.of_int GoInt.maxInt |}
  | VString _ =>
      stringSG {| stringStatGenerator.count := 0;
                  stringStatGenerator.maxLength := GoInt.minInt;
                  stringStatGenerator.minLength := GoInt.maxInt |}
  | VBool _ =>
      boolSG {| boolStatGenerator.count := 0;
                boolStatGenerator.trueCount := 0;
                boolStatGenerator.falseCount := 0 |}
  | VMap _ => objectSG ∅
  | VArray _ => arraySG []
  | VNil | VOther _ => nullSG {| nullStatGenerator.count := 0 |}
  end.

(** [for i, val := range l { ... }] threading a state through the body. *)
Section range.
Context {A S : Type} (body : nat → A → S → S).

Fixpoint range_from (i : nat) (l : list A) (s : S) : S :=
  match l with
  | [] => s
  | val :: l => range_from (Datatypes.S i) l (body i val s)
  end.
End range.

(** One iteration of the loop of [objectStatGenerator.AddEntry], given the
    method to call on the child. *)
Definition object_step (add : GoValue → statGenerator → statGenerator)
    (key : string) (val : GoValue) (children : gmap string statGenerator)
  : gmap string statGenerator :=
  let children :=
    match children !! key with
    | Some _ => children
    | None => <[key := newStatGenerator val]> children
    end in
  match children !! key with
  | Some child => <[key := add val child]> children
  | None => children
  end.

(** One iteration of the loop of [arrayStatGenerator.AddEntry].  Indexing
    [asg.children[i]] past the end would fault; [array_step_in_range] below
    shows the loop never does, so that branch keeps the children as they
    are. *)
Definition array_step (add : GoValue → statGenerator → statGenerator)
    (i : nat) (val : GoValue) (children : list statGenerator)
  : list statGenerator :=
  let children :=
    if decide (length children = i)
    then children ++ [newStatGenerator val]
    else children in
  match children !! i with
  | Some child => <[i := add val child]> children
  | None => children
  end.

(** [AddEntry] through the [statGenerator] interface.  The nodes read only
    [e.Value]; the recursion follows the nesting of that value. *)
Fixpoint AddEntry_value (val : GoValue) (index : Z) (key : string)
    (sg : statGenerator) {struct val} : statGenerator :=
  match sg with
  | nullSG g => nullSG (nullStatGenerator.AddEntry g (mkEntry index key val))
  | numericSG g =>
      numericSG (numericStatGenerator.AddEntry g (mkEntry index key val))
  | stringSG g =>
      stringSG (stringStatGenerator.AddEntry g (mkEntry index key val))
  | boolSG g => boolSG (boolStatGenerator.AddEntry g (mkEntry index key val))
  | objectSG children =>
      match val with
      | VMap mapEntry =>
          objectSG
            (map_fold
               (λ key val children,
                  object_step (λ v, AddEntry_value v 0 key) key val children)
               children mapEntry)
      | _ => sg
      end
  | arraySG children =>
      match val with
      | VArray arrayEntry =>
          arraySG
            (range_from
               (λ i val children,
                  array_step (λ v, AddEntry_value v (Z.of_nat i) "") i val
                    children)
               0 arrayEntry children)
      | _ => sg
      end
  end.

Definition AddEntry (sg : statGenerator) (e : Entry) : statGenerator :=
  AddEntry_value (Value e) (Index e) (Key e) sg.

(** [Stats] through the interface. *)
Fixpoint Stats (sg : statGenerator) : GoValue :=
  match sg with
  | nullSG g => nullStatGenerator.Stats g
  | numericSG g => numericStatGenerator.Stats g
  | stringSG g => stringStatGenerator.Stats g
  | boolSG g => boolStatGenerator.Stats g
  | objectSG children => VMap (Stats <$> children)
  | arraySG children => VArray (Stats <$> children)
  end.

(** The loops of the two composite [Close] methods: the first child whose
    [Close] fails ends the loop with that error.  Next to the error the
    model keeps a ghost counter of the [Close] calls that were made. *)
Definition close_then (r : nat * option error) (rest : nat * option error)
  : nat * option error :=
  match r.2 with
  | Some err => (r.1, Some err)
  | None => (r.1 + rest.1, rest.2)
  end.

Fixpoint Close_calls (sg : statGenerator) : nat * option error :=
  match sg with
  | nullSG g => (1, nullStatGenerator.Close g)
  | numericSG g => (1, numericStatGenerator.Close g)
  | stringSG g => (1, stringStatGenerator.Close g)
  | boolSG g => (1, boolStatGenerator.Close g)
  | objectSG children =>
      close_then (1, None)
        (map_fold (λ _ val rest, close_then (Close_calls val) rest)
           (0, None) children)
  | arraySG children =>
      close_then (1, None)
        (foldr (λ val rest, close_then (Close_calls val) rest)
           (0, None) children)
  end.

(** [Close] through the interface. *)
Definition Close (sg : statGenerator) : option error := (Close_calls sg).2.

(** Number of nodes of a statistics tree. *)
Fixpoint node_count (sg : statGenerator) : nat :=
  match sg with
  | objectSG children =>
      S (map_fold (λ _ val n, node_count val + n) 0 children)
  | arraySG children => S (foldr (λ val n, node_count val + n) 0 children)
  | _ => 1
  end.

(* ===================================================================== *)
(** ** Packages [dataset] and [dsio]: what the aggregator is built on *)
(* ===================================================================== *)

Module dataset.
(** Modelled from the spec: the Schema Descriptor ([dataset.Structure]),
    whose declaration is not part of the sources at hand.  It declares the
    data format (empty when unset), an open format configuration and a
    schema tree; a JSON schema document is a keyed map. *)
Record Structure : Type := mkStructure {
  Format : string;
  FormatConfig : gmap string GoValue;
  Schema : option (gmap string GoValue)
}.

Inductive TopLevelType : Type := TopArray | TopObject.

(** Modelled from the spec: the root of the schema declares
    [topLevelType ∈ {array, object}]; an absent schema or any other
    declaration resolves to nothing. *)
Definition topLevelType (st : Structure) : option TopLevelType :=
  match Schema st with
  | None => None
  | Some sch =>
      match sch !! "type" with
      | Some (VString "array") => Some TopArray
      | Some (VString "object") => Some TopObject
      | _ => None
      end
  end.

(** [dataset.BaseSchemaArray] and [dataset.BaseSchemaObject]. *)
Definition BaseSchemaArray : gmap string GoValue :=
  {[ "type" := VString "array" ]}.
Definition BaseSchemaObject : gmap string GoValue :=
  {[ "type" := VString "object" ]}.
End dataset.

Module dsio.
(** The [dsio.EntryReader] interface over a reader state [R]: each method
    returns its results together with the state the reader is left in.
    [ReadEntry] returns both an entry and an error, as in Go. *)
Class EntryReader (R : Type) : Type := {
  Structure : R → dataset.Structure;
  ReadEntry : R → (Entry * option error) * R;
  Close : R → option error * R
}.

(** [n] successive calls of a [ReadEntry] method, oldest result first. *)
Fixpoint ReadEntries {S : Type} (read : S → (Entry * option error) * S)
    (n : nat) (s : S) : list (Entry * option error) * S :=
  match n with
  | 0 => ([], s)
  | Datatypes.S n =>
      let '(res, s) := read s in
      let '(rest, s) := ReadEntries read n s in
      (res :: rest, s)
  end.

(** A reader over entries held in memory: it hands them out in order and
    then reports the end of the input on every further call. *)
Record SliceReader : Type := mkSliceReader {
  sr_structure : dataset.Structure;
  sr_entries : list Entry;
  sr_closed : bool
}.

Definition EOF : error := "EOF".

#[global] Instance SliceReader_EntryReader : EntryReader SliceReader := {
  Structure r := sr_structure r;
  ReadEntry r :=
    match sr_entries r with
    | [] => ((mkEntry 0 "" VNil, Some EOF), r)
    | e :: es => ((e, None), mkSliceReader (sr_structure r) es (sr_closed r))
    end;
  Close r := (None, mkSliceReader (sr_structure r) (sr_entries r) true)
}.
(** Modelled from the spec: a readable byte stream, by its content and
    the number of bytes consumed so far, and a byte sink, by the bytes
    written so far. *)
Record ByteStream : Type := mkByteStream {
  content : list Byte.byte;
  consumed : nat
}.
Definition ByteSink : Type := list Byte.byte.

(** Modelled from the spec: the formats the dispatcher builds a codec
    for over a byte stream.  (The native codec works on a value held in
    memory and is not built from bytes.) *)
Inductive DataFormat : Type :=
| CSVDataFormat | JSONDataFormat | CBORDataFormat.

Definition ParseDataFormat (s : string) : option DataFormat :=
  if decide (s = "csv") then Some CSVDataFormat
  else if decide (s = "json") then Some JSONDataFormat
  else if decide (s = "cbor") then Some CBORDataFormat
  else None.

(** Modelled from the spec: a codec the dispatcher has constructed, before
    its first read or write: the descriptor it was built from, the codec
    chosen, the declared top-level container and the stream or sink. *)
Record Codec (IO : Type) : Type := mkCodec {
  codec_structure : dataset.Structure;
  codec_format : DataFormat;
  codec_topLevel : dataset.TopLevelType;
  codec_io : IO
}.
Arguments mkCodec {IO}.
Arguments codec_io {IO}.

(** Modelled from the spec: the Format Dispatcher, whose code is not part
    of the sources at hand.  It fails with "structure must have a data
    format" when the format is empty, fails when the format is not a
    recognized one or the schema is absent or malformed, and otherwise
    constructs the codec of that format.  The stream or sink is returned
    next to the result, in the state construction leaves it in. *)
Definition dispatch {IO : Type} (st : dataset.Structure) (io : IO)
  : (option (Codec IO) * option error) * IO :=
  if decide (dataset.Format st = "")
  then ((None, Some "structure must have a data format"), io)
  else
    match ParseDataFormat (dataset.Format st) with
    | None => ((None, Some "invalid data format"), io)
    | Some format =>
        match dataset.topLevelType st with
        | None => ((None, Some "invalid schema"), io)
        | Some tlt => ((Some (mkCodec st format tlt io), None), io)
        end
    end.

Definition NewEntryReader (st : dataset.Structure) (r : ByteStream)
  : (option (Codec ByteStream) * option error) * ByteStream :=
  dispatch st r.

Definition NewEntryWriter (st : dataset.Structure) (w : ByteSink)
  : (option (Codec ByteSink) * option error) * ByteSink :=
  dispatch st w.
End dsio.

(* ===================================================================== *)
(** ** [BasicStatsGenerator] *)
(* ===================================================================== *)

Module BasicStatsGenerator.
Section methods.
Context {R : Type} `{!dsio.EntryReader R}.

(** [stats] is an interface field: [None] is the nil interface. *)
Record t : Type := mk {
  r : R;
  stats : option statGenerator
}.

(** [r.stats.Stats()]: a method call on a nil interface faults. *)
Definition Stats (g : t) : outcome GoValue :=
  match stats g with
  | Some sg => Returned (Stats sg)
  | None => Panicked
  end.

Definition Structure (g : t) : dataset.Structure :=
  dsio.Structure (r g).

Definition ReadEntry (g : t) : (Entry * option error) * t :=
  let '((ent, err), r') := dsio.ReadEntry (r g) in
  match err with
  | Some err => ((ent, Some err), {| r := r'; stats := stats g |})
  | None =>
      let sg :=
        match stats g with
        | None => newStatGenerator (Value ent)
        | Some sg => sg
        end in
      ((ent, None), {| r := r'; stats := Some (AddEntry sg ent) |})
  end.

(** [r.stats.Close()] comes first and faults on a nil interface; its
    result is dropped and the wrapped reader's [Close] is returned. *)
Definition Close (g : t) : outcome (option error * t) :=
  match stats g with
  | None => Panicked
  | Some sg =>
      let _ := Close sg in
      let '(err, r') := dsio.Close (r g) in
      Returned (err, {| r := r'; stats := stats g |})
  end.
End methods.
Arguments t R : clear implicits.
End BasicStatsGenerator.

Definition NewBasicStatsGenerator {R : Type} (r : R)
  : BasicStatsGenerator.t R * option error :=
  ({| BasicStatsGenerator.r := r; BasicStatsGenerator.stats := None |}, None).

(* ===================================================================== *)
(** ** Package [dataset]: transforms and their serializable form *)
(* ===================================================================== *)

Module TransformPod.
Section pod.
(** [StructurePod] is declared outside the sources at hand; [Assign] never
    looks into it. *)
Context {StructurePod : Type}.

(** [type TransformPod struct { ... }].  A map, slice or pointer field is
    [None] when it is nil. *)
Record t : Type := mk {
  Config : option (gmap string GoValue);
  TransformPath : string;
  Path : string;
  Qri : string;
  Resources : option (gmap string GoValue);
  Secrets : option (gmap string string);
  Structure : option StructurePod;
  ScriptPath : string;
  ScriptBytes : option (list Byte.byte);
  Syntax : string;
  SyntaxVersion : string
}.

(** [if t.F != nil { tp.F = t.F }] and [if t.F != "" { tp.F = t.F }]. *)
Definition set_if_not_nil {A : Type} (mine theirs : option A) : option A :=
  match theirs with
  | Some _ => theirs
  | None => mine
  end.

Definition set_if_not_empty (mine theirs : string) : string :=
  if decide (theirs = "") then mine else theirs.

(** The body of the loop of [Assign], for a [t] that is not nil. *)
Definition Assign_one (tp t' : t) : t :=
  {| Config := set_if_not_nil (Config tp) (Config t');
     TransformPath := set_if_not_empty (TransformPath tp) (TransformPath t');
     Path := set_if_not_empty (Path tp) (Path t');
     Qri := set_if_not_empty (Qri tp) (Qri t');
     Resources := set_if_not_nil (Resources tp) (Resources t');
     Secrets := set_if_not_nil (Secrets tp) (Secrets t');
     Structure := Structure tp;
     ScriptPath := set_if_not_empty (ScriptPath tp) (ScriptPath t');
     ScriptBytes := set_if_not_nil (ScriptBytes tp) (ScriptBytes t');
     Syntax := set_if_not_empty (Syntax tp) (Syntax t');
     SyntaxVersion := set_if_not_empty (SyntaxVersion tp) (SyntaxVersion t') |}.

(** [func (tp *TransformPod) Assign(tps ...*TransformPod)].  The receiver
    and the arguments are pointers: [σ] maps the address of a pod to the
    pod it holds, [tp] is the address of the receiver and a nil pointer
    among [tps] is [None].  Every iteration reads the argument and the
    receiver as the store holds them at that point, so an argument that is
    the receiver itself is read after the earlier iterations have written
    to it.  A pointer of a Go program always points to a pod; for an address
    the store holds nothing at, the iteration changes nothing. *)
Definition Assign (σ : gmap nat t) (tp : nat) (tps : list (option nat))
  : gmap nat t :=
  foldl (λ σ t',
           match t' with
           | None => σ
           | Some l =>
               match σ !! tp, σ !! l with
               | Some this, Some that => <[tp := Assign_one this that]> σ
               | _, _ => σ
               end
           end) σ tps.
End pod.
Arguments t StructurePod : clear implicits.
End TransformPod.

Module Transform.
Section transform.
(** [Structure], its method [Assign] and the [io.Reader] of the script are
    declared outside the sources at hand: they are parameters here.
    [Structure_zero] is [Structure{}]. *)
Context {Structure Reader : Type}.
Context (Structure_zero : Structure).
Context (Structure_Assign : Structure → Structure → Structure).

(** [type Transform struct { ... }]; [Kind] is a string type. *)
Record t : Type := mk {
  path : string;
  Qri : string;
  Script : option Reader;
  ScriptPath : string;
  Syntax : string;
  SyntaxVersion : string;
  Structure_ : option Structure;
  Config : option (gmap string GoValue);
  Resources : option (gmap string (option string))
}.

(** [NewTransformRef] *)
Definition NewTransformRef (path : string) : t :=
  mk path "" None "" "" "" None None None.

Definition Path (q : t) : string := path q.

Definition IsEmpty (q : t) : bool :=
  bool_decide (ScriptPath q = "") &&
  bool_decide (Resources q = None) &&
  bool_decide (Syntax q = "") &&
  bool_decide (SyntaxVersion q = "") &&
  match Structure_ q with None => true | Some _ => false end &&
  match Config q with None => true | Some _ => false end.

Definition SetPath (q : t) (path : string) : t :=
  mk path (Qri q) (Script q) (ScriptPath q) (Syntax q) (SyntaxVersion q)
    (Structure_ q) (Config q) (Resources q).

(** [if q2.M != nil { if q.M == nil { q.M = map{} };
     for key, val := range q2.M { q.M[key] = val } }] *)
Definition merge_map {V : Type} (mine theirs : option (gmap string V))
  : option (gmap string V) :=
  match theirs with
  | None => mine
  | Some theirs =>
      Some (map_fold (λ key val m, <[key := val]> m) (default ∅ mine) theirs)
  end.

Definition set_if_not_empty (mine theirs : string) : string :=
  if decide (theirs = "") then mine else theirs.

(** The body of the loop of [Assign], for a [q2] that is not nil.  A
    [*TransformResource] is carried by the [Path] it points to, [None] when
    the pointer is nil. *)
Definition Assign_one (q q2 : t) : t :=
  {| path := set_if_not_empty (path q) (Path q2);
     Syntax := set_if_not_empty (Syntax q) (Syntax q2);
     Config := merge_map (Config q) (Config q2);
     SyntaxVersion := set_if_not_empty (SyntaxVersion q) (SyntaxVersion q2);
     Qri := set_if_not_empty (Qri q) (Qri q2);
     Structure_ :=
       match Structure_ q2 with
       | None => Structure_ q
       | Some st2 =>
           Some (Structure_Assign (default Structure_zero (Structure_ q)) st2)
       end;
     ScriptPath := set_if_not_empty (ScriptPath q) (ScriptPath q2);
     Resources := merge_map (Resources q) (Resources q2);
     Script := Script q |}.

(** [func (q *Transform) Assign(qs ...*Transform)] *)
Definition Assign (q : t) (qs : list (option t)) : t :=
  foldl (λ q q2,
           match q2 with
           | None => q
           | Some q2 => Assign_one q q2
           end) q qs.

(** The test [q.path != "" && q.IsEmpty()] with which [MarshalJSON] chooses
    to write the transform as a bare path string. *)
Definition marshals_as_path (q : t) : bool :=
  negb (bool_decide (path q = "")) && IsEmpty q.
End transform.
Arguments t : clear implicits.
End Transform.

(* ===================================================================== *)
(** ** Vocabulary of the properties *)
(* ===================================================================== *)

(** The six node variants. *)
Inductive Variant : Type :=
| NullV | NumericV | StringV | BoolV | ObjectV | ArrayV.

#[export] Instance Variant_eq_dec : EqDecision Variant.
Proof. solve_decision. Defined.

Definition variant (sg : statGenerator) : Variant :=
  match sg with
  | nullSG _ => NullV
  | numericSG _ => NumericV
  | stringSG _ => StringV
  | boolSG _ => BoolV
  | objectSG _ => ObjectV
  | arraySG _ => ArrayV
  end.

(** The variant a value's runtime type belongs to; a type the package has no
    case for belongs to none. *)
Definition typeVariant (val : GoValue) : option Variant :=
  match val with
  | VNil => Some NullV
  | VInt _ | VFloat32 _ | VFloat64 _ => Some NumericV
  | VString _ => Some StringV
  | VBool _ => Some BoolV
  | VMap _ => Some ObjectV
  | VArray _ => Some ArrayV
  | VOther _ => None
  end.

(** The entry of the first read that succeeded. *)
Fixpoint firstRead (results : list (Entry * option error)) : option Entry :=
  match results with
  | [] => None
  | (ent, None) :: _ => Some ent
  | (_, Some _) :: results => firstRead results
  end.

(** What one read through the aggregator does to its statistics root. *)
Definition observe (stats : option statGenerator)
    (res : Entry * option error) : option statGenerator :=
  match res.2 with
  | Some _ => stats
  | None =>
      Some (AddEntry (default (newStatGenerator (Value res.1)) stats) res.1)
  end.

(** A numeric node after one more number [v]. *)
Definition observe_number (g : numericStatGenerator.t) (v : float)
  : numericStatGenerator.t :=
  {| numericStatGenerator.typ := numericStatGenerator.typ g;
     numericStatGenerator.count := GoInt.incr (numericStatGenerator.count g);
     numericStatGenerator.min :=
       if Float64.lt v (numericStatGenerator.min g) then v
       else numericStatGenerator.min g;
     numericStatGenerator.max :=
       if Float64.gt v (numericStatGenerator.max g) then v
       else numericStatGenerator.max g |}.

(** The count a leaf node holds. *)
Definition leaf_count (sg : statGenerator) : option Z :=
  match sg with
  | nullSG g => Some (nullStatGenerator.count g)
  | numericSG g => Some (numericStatGenerator.count g)
  | stringSG g => Some (stringStatGenerator.count g)
  | boolSG g => Some (boolStatGenerator.count g)
  | objectSG _ | arraySG _ => None
  end.

(** The summary [{count}] alone. *)
Definition count_alone (n : Z) : GoValue := VMap {[ "count" := VInt n ]}.

(** What a map value does to the child an object node holds for [key]. *)
Definition observe_field (key : string) (child : option statGenerator)
    (mapEntry : gmap string GoValue) : option statGenerator :=
  match mapEntry !! key with
  | Some val =>
      Some (AddEntry (default (newStatGenerator val) child) (mkEntry 0 key val))
  | None => child
  end.

(** The entry's value is an object whose field [key] satisfies [P]. *)
Definition has_field (key : string) (P : GoValue → Prop) (e : Entry) : Prop :=
  ∃ mapEntry val,
    Value e = VMap mapEntry ∧ mapEntry !! key = Some val ∧ P val.

(** The value is the number [x], held as an integer or as a float. *)
Definition is_number (x : Z) (val : GoValue) : Prop :=
  numericStatGenerator.toFloat64 val = Some (Float64.of_int x).

(** The results of reads that all succeeded. *)
Definition succeeded (es : list Entry) : list (Entry * option error) :=
  (λ e, (e, None)) <$> es.

(** The last string of [xs] that is not empty, [x0] when there is none;
    the last entry of [xs] that is not nil, [x0] when there is none. *)
Definition last_non_empty (xs : list string) (x0 : string) : string :=
  default x0 (last (filter (λ x, x ≠ "") xs)).

Definition last_non_nil {A : Type} (xs : list (option A)) (x0 : option A)
  : option A :=
  default x0 (last (filter (λ x, is_Some x) xs)).

(** The pods among the arguments of an [Assign] that are not nil. *)
Definition non_nil {A : Type} (xs : list (option A)) : list A := omap id xs.

(** The pods an [Assign] on the receiver at [tp] takes values from: those
    the store held, before the call, at the arguments that are neither nil
    nor the receiver itself, in the order of the arguments. *)
Definition assigned_pods {StructurePod : Type}
    (σ : gmap nat (TransformPod.t StructurePod)) (tp : nat)
    (tps : list (option nat)) : list (TransformPod.t StructurePod) :=
  omap (λ l, if decide (l = tp) then None else σ !! l) (non_nil tps).

(** An object-valued entry, and the readers used as concrete inputs. *)
Definition objectEntry (i : Z) (m : gmap string GoValue) : Entry :=
  mkEntry i "" (VMap m).

Definition emptyStructure : dataset.Structure :=
  dataset.mkStructure "" ∅ None.

Definition jsonArrayStructure : dataset.Structure :=
  dataset.mkStructure "json" ∅ (Some dataset.BaseSchemaArray).

Definition sliceReader (es : list Entry) : dsio.SliceReader :=
  dsio.mkSliceReader jsonArrayStructure es false.

Definition fiveEntries : list Entry :=
  [ objectEntry 0 {[ "n" := VInt 1; "z" := VNil ]};
    objectEntry 1 {[ "n" := VFloat64 (Float64.of_int 2); "z" := VNil ]};
    objectEntry 2 {[ "n" := VInt 3; "z" := VNil ]};
    objectEntry 3 {[ "n" := VFloat64 (Float64.of_int 4); "z" := VNil ]};
    objectEntry 4 {[ "n" := VInt 5; "z" := VNil ]} ].

(** The five rows of [TestBasicStatsReader], as the values of one entry
    each: once as objects and once as arrays. *)
Definition testRow (int : Z) (float : float) (bool : bool) (str : string)
  : gmap string GoValue :=
  {[ "int" := VInt int; "float" := VFloat64 float; "nil" := VNil;
     "bool" := VBool bool; "string" := VString str ]}.

Definition testRowArray (int : Z) (float : float) (bool : bool) (str : string)
  : list GoValue :=
  [VInt int; VFloat64 float; VNil; VBool bool; VString str].

Definition testObjectEntries : list Entry :=
  [ mkEntry 0 "" (VMap (testRow 1 1.1 false "a"));
    mkEntry 1 "" (VMap (testRow 2 2.2 true "aa"));
    mkEntry 2 "" (VMap (testRow 3 3.3 false "aaa"));
    mkEntry 3 "" (VMap (testRow 4 4.4 true "aaaa"));
    mkEntry 4 "" (VMap (testRow 5 5.5 false "aaaaa")) ].

Definition testArrayEntries : list Entry :=
  [ mkEntry 0 "a" (VArray (testRowArray 1 1.1 false "a"));
    mkEntry 0 "b" (VArray (testRowArray 2 2.2 true "aa"));
    mkEntry 0 "c" (VArray (testRowArray 3 3.3 false "aaa"));
    mkEntry 0 "d" (VArray (testRowArray 4 4.4 true "aaaa"));
    mkEntry 0 "e" (VArray (testRowArray 5 5.5 false "aaaaa")) ].

Definition testExpect : list GoValue :=
  [ VMap {[ "count" := VInt 5; "min" := VFloat64 1; "max" := VFloat64 5 ]};
    VMap {[ "count" := VInt 5; "min" := VFloat64 1.1; "max" := VFloat64 5.5 ]};
    VMap {[ "count" := VInt 5 ]};
    VMap {[ "count" := VInt 5; "trueCount" := VInt 2; "falseCount" := VInt 3 ]};
    VMap {[ "count" := VInt 5; "minLength" := VInt 1; "maxLength" := VInt 5 ]} ].

(** [dsio.ReadAll] followed by [Stats], on a reader of [n] entries: the
    reads that succeed and the one that reports the end of the input. *)
Definition statsAfterReadAll (es : list Entry) : outcome GoValue :=
  BasicStatsGenerator.Stats
    (dsio.ReadEntries BasicStatsGenerator.ReadEntry (S (length es))
       (NewBasicStatsGenerator (sliceReader es)).1).2.

(** The entries whose value is of the node's own variant. *)
Definition own_values (sg : statGenerator) (es : list Entry) : list Entry :=
  filter (λ e, typeVariant (Value e) = Some (variant sg)) es.

(** The lengths of the string values among the entries, in order. *)
Definition string_lengths (es : list Entry) : list Z :=
  omap (λ e, match Value e with
             | VString str => Some (stringStatGenerator.len str)
             | _ => None
             end) es.

(** The number of entries holding the boolean [b]. *)
Definition holds_bool (b : bool) (e : Entry) : bool :=
  match Value e with
  | VBool b' => bool_decide (b' = b)
  | _ => false
  end.

Definition count_bool (b : bool) (es : list Entry) : Z :=
  Z.of_nat (length (filter (λ e, holds_bool b e) es)).

(** The numbers among the entries, converted to [float64], in order. *)
Definition numbers (es : list Entry) : list float :=
  omap (λ e, numericStatGenerator.toFloat64 (Value e)) es.

(** The map values among the entries, in order. *)
Definition map_values (es : list Entry) : list (gmap string GoValue) :=
  omap (λ e, match Value e with VMap m => Some m | _ => None end) es.

(** The sequence values among the entries, in order. *)
Definition array_values (es : list Entry) : list (list GoValue) :=
  omap (λ e, match Value e with VArray l => Some l | _ => None end) es.

(** The loop of [objectStatGenerator.AddEntry] when the map is ranged over
    in the order [order] (Go leaves the order of a [range] over a map
    unspecified). *)
Definition object_loop_in_order
    (add : string → GoValue → statGenerator → statGenerator)
    (order : list (string * GoValue)) (children : gmap string statGenerator)
  : gmap string statGenerator :=
  foldl (λ children kv, object_step (add kv.1) kv.1 kv.2 children)
    children order.

(** The loop of [arrayStatGenerator.AddEntry] with the bounds check of
    [asg.children[i]] made explicit: [None] is the run-time fault of an
    index out of range. *)
Definition array_step_checked (add : GoValue → statGenerator → statGenerator)
    (i : nat) (val : GoValue) (children : list statGenerator)
  : option (list statGenerator) :=
  let children :=
    if decide (length children = i)
    then children ++ [newStatGenerator val]
    else children in
  match children !! i with
  | Some child => Some (<[i := add val child]> children)
  | None => None
  end.

Fixpoint array_loop_checked
    (add : nat → GoValue → statGenerator → statGenerator)
    (i : nat) (arrayEntry : list GoValue) (children : list statGenerator)
  : option (list statGenerator) :=
  match arrayEntry with
  | [] => Some children
  | val :: arrayEntry =>
      match array_step_checked (add i) i val children with
      | Some children => array_loop_checked add (S i) arrayEntry children
      | None => None
      end
  end.

(** Entries of mixed types, and a transform with content, used as
    concrete inputs. *)
Definition mixedEntries : list Entry :=
  [ mkEntry 0 "" (VString "a"); mkEntry 1 "" (VInt 1);
    mkEntry 2 "" (VString "bbb"); mkEntry 3 "" (VOther "int64") ].

Definition hugeEntry : Entry := mkEntry 0 "" (VFloat64 1e19).

Definition twoFields : gmap string GoValue :=
  {[ "a" := VNil; "b" := VInt 1 ]}.

Definition refTransform : Transform.t unit unit :=
  Transform.NewTransformRef "/ref".

Definition scriptTransform : Transform.t unit unit :=
  Transform.mk "" "" None "transform.star" "starlark" "" None
    (Some {[ "key" := VInt 1 ]}) None.

(** A pod that holds a path only, and a store with two pods. *)
Definition pathPod (path : string) : TransformPod.t unit :=
  TransformPod.mk None "" path "" None None None "" None "" "".

Definition twoPods : gmap nat (TransformPod.t unit) :=
  {[ 0 := pathPod "/old"; 1 := pathPod "/new" ]}.

(* ===================================================================== *)
(** ** Leaf nodes *)
(* ===================================================================== *)

Lemma AddEntry_unfold sg e :
  AddEntry sg e =
  match sg with
  | nullSG g => nullSG (nullStatGenerator.AddEntry g e)
  | numericSG g => numericSG (numericStatGenerator.AddEntry g e)
  | stringSG g => stringSG (stringStatGenerator.AddEntry g e)
  | boolSG g => boolSG (boolStatGenerator.AddEntry g e)
  | objectSG children =>
      match Value e with
      | VMap mapEntry =>
          objectSG (map_fold (λ key val children,
                      object_step (λ v sg, AddEntry sg (mkEntry 0 key v))
                        key val children) children mapEntry)
      | _ => sg
      end
  | arraySG children =>
      match Value e with
      | VArray arrayEntry =>
          arraySG (range_from (λ i val children,
                     array_step (λ v sg, AddEntry sg (mkEntry (Z.of_nat i) "" v))
                       i val children) 0 arrayEntry children)
      | _ => sg
      end
  end.
Proof. destruct e as [i k v]. by destruct sg, v. Qed.

(** C10. A numeric node, whatever type seeded it, takes every [int],
    [float32] and [float64] value: the count goes up by one and min and max
    are updated with the value converted to [float64]; a value of any other
    type leaves the node as it is. *)
Theorem numeric_node_accepts_int_and_float (g : numericStatGenerator.t) (e : Entry) :
  AddEntry (numericSG g) e =
  match Value e with
  | VInt x => numericSG (observe_number g (Float64.of_int x))
  | VFloat32 x | VFloat64 x => numericSG (observe_number g x)
  | _ => numericSG g
  end.
Proof.
  rewrite AddEntry_unfold. unfold numericStatGenerator.AddEntry, observe_number.
  destruct e as [i k v], g as [ty c mn mx]; destruct v; simpl; try done;
    repeat case_match; simpl in *; congruence.
Qed.

(** C2, as the claim states it, fails: a boolean node whose count is 0 (the
    node [newStatGenerator] returns for a [bool]) reports three fields, not
    [{count}] alone. *)
Lemma bool_node_zero_count_reports_three_fields :
  let sg := newStatGenerator (VBool true) in
  leaf_count sg = Some 0%Z ∧
  Stats sg ≠ count_alone 0 ∧
  Stats sg = VMap {[ "count" := VInt 0; "trueCount" := VInt 0;
                     "falseCount" := VInt 0 ]}.
Proof.
  intros sg. split; [done|]. split; [|done].
  intros Heq.
  apply (f_equal (λ v, match v with
                       | VMap m => m !! "trueCount"
                       | _ => None
                       end)) in Heq.
  vm_compute in Heq. discriminate.
Qed.

(** C2, amended. A numeric or string node reports [{count: 0}] alone when
    its count is 0 and count/min/max, respectively
    count/minLength/maxLength, otherwise; a boolean node always reports
    count/trueCount/falseCount and a null node always reports count. *)
Theorem leaf_stats_by_variant (sg : statGenerator) :
  match sg with
  | numericSG g =>
      Stats sg =
      if decide (numericStatGenerator.count g = 0%Z) then count_alone 0
      else VMap {[ "count" := VInt (numericStatGenerator.count g);
                   "min" := VFloat64 (numericStatGenerator.min g);
                   "max" := VFloat64 (numericStatGenerator.max g) ]}
  | stringSG g =>
      Stats sg =
      if decide (stringStatGenerator.count g = 0%Z) then count_alone 0
      else VMap {[ "count" := VInt (stringStatGenerator.count g);
                   "minLength" := VInt (stringStatGenerator.minLength g);
                   "maxLength" := VInt (stringStatGenerator.maxLength g) ]}
  | boolSG g =>
      Stats sg =
      VMap {[ "count" := VInt (boolStatGenerator.count g);
              "trueCount" := VInt (boolStatGenerator.trueCount g);
              "falseCount" := VInt (boolStatGenerator.falseCount g) ]}
  | nullSG g => Stats sg = count_alone (nullStatGenerator.count g)
  | objectSG _ | arraySG _ => True
  end.
Proof. by destruct sg. Qed.

(* ===================================================================== *)
(** ** The variant of a node *)
(* ===================================================================== *)

Lemma variant_newStatGenerator val :
  variant (newStatGenerator val) = default NullV (typeVariant val).
Proof. by destruct val. Qed.

Lemma variant_AddEntry sg e : variant (AddEntry sg e) = variant sg.
Proof. rewrite AddEntry_unfold. destruct sg; simpl; try done; by case_match. Qed.

Lemma AddEntry_other_type sg e :
  typeVariant (Value e) ≠ Some (variant sg) → AddEntry sg e = sg.
Proof.
  rewrite AddEntry_unfold. destruct e as [i k v]. simpl.
  destruct sg as [[]|[]|[]|[]| |], v; simpl; try done; intros []; done.
Qed.

(* ===================================================================== *)
(** ** Reading through the aggregator *)
(* ===================================================================== *)

Section aggregator.
Context {R : Type} `{!dsio.EntryReader R}.
Implicit Types (g : BasicStatsGenerator.t R) (r : R).

Lemma ReadEntry_observe g :
  BasicStatsGenerator.ReadEntry g =
  let '(res, r') := dsio.ReadEntry (BasicStatsGenerator.r g) in
  (res, {| BasicStatsGenerator.r := r';
           BasicStatsGenerator.stats :=
             observe (BasicStatsGenerator.stats g) res |}).
Proof.
  unfold BasicStatsGenerator.ReadEntry, observe.
  destruct (dsio.ReadEntry _) as [[ent [err|]] r']; simpl; [done|].
  by destruct (BasicStatsGenerator.stats g).
Qed.

(** Reading [n] times through the aggregator reads [n] times from the
    wrapped reader and folds the results into the statistics root. *)
Lemma ReadEntries_observe n g :
  dsio.ReadEntries BasicStatsGenerator.ReadEntry n g =
  let '(results, r') :=
    dsio.ReadEntries dsio.ReadEntry n (BasicStatsGenerator.r g) in
  (results, {| BasicStatsGenerator.r := r';
               BasicStatsGenerator.stats :=
                 foldl observe (BasicStatsGenerator.stats g) results |}).
Proof.
  revert g. induction n as [|n IH]; intros g; simpl.
  { by destruct g. }
  rewrite ReadEntry_observe.
  destruct (dsio.ReadEntry _) as [res r1]. rewrite IH. simpl.
  by destruct (dsio.ReadEntries _ _ _) as [results r'].
Qed.

Lemma foldl_observe_failed stats results :
  Forall (λ res : Entry * option error, is_Some res.2) results →
  foldl observe stats results = stats.
Proof.
  intros Hall. revert stats.
  induction Hall as [|[ent err] results [e He] _ IH]; intros stats; [done|].
  simpl in *. subst. apply IH.
Qed.

Lemma variant_foldl_observe sg results :
  variant <$> foldl observe (Some sg) results = Some (variant sg).
Proof.
  revert sg. induction results as [|[ent [err|]] results IH]; intros sg;
    simpl; [done|apply IH|].
  unfold observe at 2. simpl. rewrite IH. by rewrite variant_AddEntry.
Qed.

Lemma variant_root_firstRead results :
  variant <$> foldl observe None results =
  (λ e, variant (newStatGenerator (Value e))) <$> firstRead results.
Proof.
  induction results as [|[ent [err|]] results IH]; simpl; [done|apply IH|].
  unfold observe at 2. simpl.
  by rewrite variant_foldl_observe, variant_AddEntry.
Qed.
End aggregator.

(* ===================================================================== *)
(** ** Composite nodes: how children come to be *)
(* ===================================================================== *)

Section fan_out.
Implicit Types (children : gmap string statGenerator)
  (mapEntry : gmap string GoValue).

Lemma object_step_lookup (add : GoValue → statGenerator → statGenerator)
    key val children k :
  object_step add key val children !! k =
  if decide (k = key)
  then Some (add val (default (newStatGenerator val) (children !! key)))
  else children !! k.
Proof.
  unfold object_step. destruct (children !! key) as [child|] eqn:Hkey; simpl.
  - rewrite Hkey. case_decide as Hk; subst.
    + by rewrite lookup_insert_eq.
    + by rewrite lookup_insert_ne.
  - rewrite lookup_insert_eq. case_decide as Hk; subst.
    + by rewrite lookup_insert_eq.
    + by rewrite !lookup_insert_ne.
Qed.

(** The children of an object node after the loop over a map value. *)
Lemma object_loop_lookup (add : string → GoValue → statGenerator → statGenerator)
    children mapEntry k :
  map_fold (λ key val ch, object_step (add key) key val ch)
    children mapEntry !! k =
  match mapEntry !! k with
  | Some val =>
      Some (add k val (default (newStatGenerator val) (children !! k)))
  | None => children !! k
  end.
Proof.
  revert k. apply (map_fold_weak_ind (λ r m, ∀ k, r !! k = match m !! k with
    | Some val =>
        Some (add k val (default (newStatGenerator val) (children !! k)))
    | None => children !! k
    end)).
  - intros k. by rewrite lookup_empty.
  - intros key val m r Hfresh IH k. rewrite object_step_lookup.
    case_decide as Hk; subst.
    + rewrite lookup_insert_eq, IH. by rewrite Hfresh.
    + by rewrite lookup_insert_ne, IH.
Qed.

Lemma array_step_lookup (add : GoValue → statGenerator → statGenerator)
    i val (children : list statGenerator) j :
  i ≤ length children →
  array_step add i val children !! j =
  if decide (j = i)
  then Some (add val (default (newStatGenerator val) (children !! i)))
  else children !! j.
Proof.
  intros Hle. unfold array_step. case_decide as Hlen.
  - subst i. rewrite lookup_app_r, Nat.sub_diag by done. simpl.
    rewrite (lookup_ge_None_2 children (length children)) by done. simpl.
    case_decide as Hj; subst.
    + apply list_lookup_insert_eq. rewrite length_app. simpl. lia.
    + rewrite list_lookup_insert_ne by done.
      destruct (decide (j < length children)).
      * by rewrite lookup_app_l.
      * rewrite !lookup_ge_None_2; [done|lia|rewrite length_app; simpl; lia].
  - destruct (lookup_lt_is_Some_2 children i) as [child Hchild]; [lia|].
    rewrite Hchild. simpl. case_decide as Hj; subst.
    + apply list_lookup_insert_eq. lia.
    + by rewrite list_lookup_insert_ne.
Qed.

Lemma array_step_length (add : GoValue → statGenerator → statGenerator)
    i val (children : list statGenerator) :
  i ≤ length children →
  length (array_step add i val children) = length children `max` S i.
Proof.
  intros Hle. unfold array_step. case_decide as Hlen.
  - subst i. rewrite lookup_app_r, Nat.sub_diag by done. simpl.
    rewrite length_insert, length_app. simpl. lia.
  - destruct (lookup_lt_is_Some_2 children i) as [child Hchild]; [lia|].
    rewrite Hchild, length_insert. lia.
Qed.

(** The loop of the array node never indexes past the end. *)
Lemma array_step_in_range i val (children : list statGenerator) :
  i ≤ length children →
  is_Some ((if decide (length children = i)
            then children ++ [newStatGenerator val]
            else children) !! i).
Proof.
  intros Hle. apply lookup_lt_is_Some_2. case_decide.
  - rewrite length_app. simpl. lia.
  - lia.
Qed.

(** The children of an array node after the loop over the elements
    [arrayEntry], the first of which has index [i]. *)
Lemma array_loop_lookup (add : nat → GoValue → statGenerator → statGenerator)
    i arrayEntry (children : list statGenerator) j :
  i ≤ length children →
  range_from (λ i val ch, array_step (add i) i val ch) i arrayEntry children
    !! j =
  if decide (j < i) then children !! j
  else match arrayEntry !! (j - i) with
       | Some val =>
           Some (add j val (default (newStatGenerator val) (children !! j)))
       | None => children !! j
       end.
Proof.
  revert i children. induction arrayEntry as [|val l IH]; intros i ch Hle;
    simpl.
  { by case_decide. }
  rewrite IH by (rewrite array_step_length by done; lia).
  rewrite array_step_lookup by done.
  destruct (decide (j < S i)) as [Hlt|Hge].
  - case_decide; case_decide; try lia; subst.
    + by rewrite Nat.sub_diag.
    + done.
  - rewrite decide_False by lia. rewrite decide_False by lia.
    by replace (j - i) with (S (j - S i)) by lia.
Qed.

Lemma array_loop_length (add : nat → GoValue → statGenerator → statGenerator)
    i arrayEntry (children : list statGenerator) :
  i ≤ length children →
  length (range_from (λ i val ch, array_step (add i) i val ch)
            i arrayEntry children) =
  length children `max` (i + length arrayEntry).
Proof.
  revert i children. induction arrayEntry as [|val l IH]; intros i ch Hle;
    simpl.
  { lia. }
  rewrite IH by (rewrite array_step_length by done; lia).
  rewrite array_step_length by done. lia.
Qed.
End fan_out.

(** C7. An object node observing a map value creates a child for a key
    when the key is first observed and otherwise hands the value to the
    child it has; an array node observing a sequence grows its children to
    the length of the sequence when that is longer, and hands element [i]
    to child [i]. *)
Theorem composite_nodes_fan_out (e : Entry) :
  (∀ children mapEntry,
     Value e = VMap mapEntry →
     ∃ children',
       AddEntry (objectSG children) e = objectSG children' ∧
       ∀ key,
         children' !! key =
         match mapEntry !! key with
         | Some val =>
             Some (AddEntry (default (newStatGenerator val) (children !! key))
                     (mkEntry 0 key val))
         | None => children !! key
         end) ∧
  (∀ children arrayEntry,
     Value e = VArray arrayEntry →
     ∃ children',
       AddEntry (arraySG children) e = arraySG children' ∧
       length children' = length children `max` length arrayEntry ∧
       ∀ i,
         children' !! i =
         match arrayEntry !! i with
         | Some val =>
             Some (AddEntry (default (newStatGenerator val) (children !! i))
                     (mkEntry (Z.of_nat i) "" val))
         | None => children !! i
         end).
Proof.
  split.
  - intros children mapEntry HV. eexists. split.
    { rewrite AddEntry_unfold, HV. reflexivity. }
    intros key.
    apply (object_loop_lookup (λ key v sg, AddEntry sg (mkEntry 0 key v))).
  - intros children arrayEntry HV. eexists. split; [|split].
    { rewrite AddEntry_unfold, HV. reflexivity. }
    + rewrite (array_loop_length
                 (λ i v sg, AddEntry sg (mkEntry (Z.of_nat i) "" v))) by lia.
      done.
    + intros i.
      rewrite (array_loop_lookup
                 (λ i v sg, AddEntry sg (mkEntry (Z.of_nat i) "" v))) by lia.
      rewrite decide_False by lia. by rewrite Nat.sub_0_r.
Qed.

(* ===================================================================== *)
(** ** Induction over statistics trees, and [Close] *)
(* ===================================================================== *)

Section tree.
Implicit Types (children : gmap string statGenerator)
  (elems : list statGenerator).

Lemma node_count_object_child children key child :
  children !! key = Some child →
  node_count child < node_count (objectSG children).
Proof.
  simpl. intros Hchild. apply Nat.lt_succ_r. revert key child Hchild.
  apply (map_fold_weak_ind (λ n m, ∀ key child,
    m !! key = Some child → node_count child ≤ n)).
  - intros key child. by rewrite lookup_empty.
  - intros i x m n Hfresh IH key child.
    destruct (decide (key = i)) as [->|Hne].
    + rewrite lookup_insert_eq. intros [= ->]. lia.
    + rewrite lookup_insert_ne by done. intros Hm%IH. lia.
Qed.

Lemma node_count_array_child elems child :
  child ∈ elems → node_count child < node_count (arraySG elems).
Proof.
  simpl. intros Hin. apply Nat.lt_succ_r.
  induction Hin as [child elems|child other elems _ IH]; simpl; lia.
Qed.

(** Structural induction over a statistics tree. *)
Lemma statGenerator_tree_ind (P : statGenerator → Prop) :
  (∀ g, P (nullSG g)) →
  (∀ g, P (numericSG g)) →
  (∀ g, P (stringSG g)) →
  (∀ g, P (boolSG g)) →
  (∀ children, map_Forall (λ _ child, P child) children →
               P (objectSG children)) →
  (∀ elems, Forall P elems → P (arraySG elems)) →
  ∀ sg, P sg.
Proof.
  intros Hnull Hnum Hstr Hbool Hobj Harr sg.
  remember (node_count sg) as n eqn:Hn.
  revert sg Hn. induction (lt_wf n) as [n _ IH]. intros sg ->.
  destruct sg as [g|g|g|g|children|elems]; auto.
  - apply Hobj. intros key child Hchild.
    eapply IH; [|done]. by eapply node_count_object_child.
  - apply Harr. apply Forall_forall. intros child Hin.
    eapply IH; [|done]. by apply node_count_array_child.
Qed.

Lemma Close_calls_object_loop children :
  map_Forall (λ _ child, Close_calls child = (node_count child, None))
    children →
  map_fold (λ _ val rest, close_then (Close_calls val) rest) (0, None)
    children =
  (map_fold (λ _ val n, node_count val + n) 0 children, None).
Proof.
  induction children as [|key child m Hfresh Hfirst IH]
    using map_first_key_ind; intros Hall.
  { by rewrite !map_fold_empty. }
  rewrite !map_fold_insert_first_key by done.
  rewrite IH.
  - rewrite (Hall key child) by apply lookup_insert_eq. done.
  - intros k c Hk. apply (Hall k c).
    rewrite lookup_insert_ne; [done|]. intros ->. congruence.
Qed.

Lemma Close_calls_array_loop elems :
  Forall (λ child, Close_calls child = (node_count child, None)) elems →
  foldr (λ val rest, close_then (Close_calls val) rest) (0, None) elems =
  (foldr (λ val n, node_count val + n) 0 elems, None).
Proof.
  induction 1 as [|child elems Hchild _ IH]; simpl; [done|].
  by rewrite IH, Hchild.
Qed.

(** [Close] is called on every node of the tree and never fails. *)
Lemma Close_calls_all sg : Close_calls sg = (node_count sg, None).
Proof.
  induction sg as [g|g|g|g|children IH|elems IH]
    using statGenerator_tree_ind; try done.
  - simpl. by rewrite Close_calls_object_loop.
  - simpl. by rewrite Close_calls_array_loop.
Qed.
End tree.

(** When the statistics root is set, closing the aggregator calls [Close]
    on every node of the statistics tree, each call returning nil, then
    closes the wrapped reader and returns what the wrapped reader's [Close]
    returned. *)
Lemma close_with_root_closes_tree_then_reader {R : Type} `{!dsio.EntryReader R}
    (g : BasicStatsGenerator.t R) (sg : statGenerator) :
  BasicStatsGenerator.stats g = Some sg →
  Close_calls sg = (node_count sg, None) ∧
  Close sg = None ∧
  BasicStatsGenerator.Close g =
  Returned ((dsio.Close (BasicStatsGenerator.r g)).1,
            {| BasicStatsGenerator.r := (dsio.Close (BasicStatsGenerator.r g)).2;
               BasicStatsGenerator.stats := Some sg |}).
Proof.
  intros Hstats. split; [apply Close_calls_all|]. split.
  { unfold Close. by rewrite Close_calls_all. }
  unfold BasicStatsGenerator.Close. rewrite Hstats.
  by destruct (dsio.Close _).
Qed.

(** C8. On an aggregator over an empty input, whose only read reported the
    end of the input, the statistics root is still the nil interface:
    [Close] faults at the call on it, returns nothing and leaves the wrapped
    reader open, although closing that reader would have succeeded.  The
    claim has every [Close] close the wrapped reader and return its
    result. *)
Theorem close_faults_and_leaves_reader_open :
  let run := dsio.ReadEntries BasicStatsGenerator.ReadEntry 1
               (NewBasicStatsGenerator (sliceReader [])).1 in
  run.1 = [(mkEntry 0 "" VNil, Some dsio.EOF)] ∧
  BasicStatsGenerator.Close run.2 = Panicked ∧
  dsio.sr_closed (BasicStatsGenerator.r run.2) = false ∧
  dsio.Close (BasicStatsGenerator.r run.2) =
    (None, dsio.mkSliceReader jsonArrayStructure [] true).
Proof. repeat split. Qed.

(* ===================================================================== *)
(** ** The aggregator as a reader *)
(* ===================================================================== *)

(** C3. The variant of a node is the one its first value selects; no later
    value changes it, and a value whose type belongs to another variant
    leaves the node exactly as it was.  The root of an aggregator is chosen
    from the first entry that was read successfully and keeps that variant
    whatever is read afterwards. *)
Theorem variant_fixed_by_first_value :
  (∀ val, variant (newStatGenerator val) = default NullV (typeVariant val)) ∧
  (∀ sg e, variant (AddEntry sg e) = variant sg) ∧
  (∀ sg e, typeVariant (Value e) ≠ Some (variant sg) → AddEntry sg e = sg) ∧
  (∀ (R : Type) (H : dsio.EntryReader R) (r : R) (n : nat),
     let run :=
       dsio.ReadEntries BasicStatsGenerator.ReadEntry n
         (NewBasicStatsGenerator r).1 in
     variant <$> BasicStatsGenerator.stats run.2 =
     (λ e, variant (newStatGenerator (Value e))) <$> firstRead run.1).
Proof.
  split; [apply variant_newStatGenerator|].
  split; [apply variant_AddEntry|].
  split; [apply AddEntry_other_type|].
  intros R H r n. simpl. rewrite ReadEntries_observe. simpl.
  destruct (dsio.ReadEntries _ _ _) as [results r']. simpl.
  apply variant_root_firstRead.
Qed.

(** C5. When the wrapped reader's [ReadEntry] fails, the aggregator returns
    the same entry and error, and its statistics root is what it was
    before the call: no node is updated or created, and a root that was
    not chosen yet is still not chosen. *)
Theorem failed_read_leaves_stats_alone {R : Type} `{!dsio.EntryReader R}
    (g : BasicStatsGenerator.t R) (ent : Entry) (err : error) (r' : R) :
  dsio.ReadEntry (BasicStatsGenerator.r g) = ((ent, Some err), r') →
  BasicStatsGenerator.ReadEntry g =
  ((ent, Some err),
   {| BasicStatsGenerator.r := r';
      BasicStatsGenerator.stats := BasicStatsGenerator.stats g |}).
Proof.
  intros Hread. unfold BasicStatsGenerator.ReadEntry. by rewrite Hread.
Qed.

(** C6. A successful read through the aggregator returns the very entry
    the wrapped reader produced, with a nil error, and leaves the wrapped
    reader where that read left it; [Structure] is the wrapped reader's. *)
Theorem successful_read_is_forwarded {R : Type} `{!dsio.EntryReader R}
    (g : BasicStatsGenerator.t R) (ent : Entry) (r' : R) :
  dsio.ReadEntry (BasicStatsGenerator.r g) = ((ent, None), r') →
  (BasicStatsGenerator.ReadEntry g).1 = (ent, None) ∧
  BasicStatsGenerator.r (BasicStatsGenerator.ReadEntry g).2 = r' ∧
  BasicStatsGenerator.Structure g = dsio.Structure (BasicStatsGenerator.r g).
Proof.
  intros Hread. unfold BasicStatsGenerator.ReadEntry. by rewrite Hread.
Qed.

(** C9. As long as no read through the aggregator has succeeded (none was
    made, or every one failed), its statistics root is the nil interface
    and both [Stats] and [Close] fault instead of returning. *)
Theorem stats_and_close_fault_before_first_entry {R : Type}
    `{!dsio.EntryReader R} (r : R) (n : nat)
    (results : list (Entry * option error)) (g : BasicStatsGenerator.t R) :
  dsio.ReadEntries BasicStatsGenerator.ReadEntry n (NewBasicStatsGenerator r).1
    = (results, g) →
  Forall (λ res : Entry * option error, is_Some res.2) results →
  BasicStatsGenerator.stats g = None ∧
  BasicStatsGenerator.Stats g = Panicked ∧
  BasicStatsGenerator.Close g = Panicked.
Proof.
  rewrite ReadEntries_observe. simpl.
  destruct (dsio.ReadEntries _ _ _) as [results' r'].
  intros [= <- <-] Hfailed.
  unfold BasicStatsGenerator.Stats, BasicStatsGenerator.Close. simpl.
  by rewrite foldl_observe_failed.
Qed.

(* ===================================================================== *)
(** ** Summaries of object-valued entries *)
(* ===================================================================== *)

Lemma foldl_observe_succeeded sg es :
  foldl observe (Some sg) (succeeded es) = Some (foldl AddEntry sg es).
Proof.
  revert sg. induction es as [|e es IH]; intros sg; [done|]. apply IH.
Qed.

Lemma foldl_observe_first e es :
  foldl observe None (succeeded (e :: es)) =
  Some (foldl AddEntry (newStatGenerator (Value e)) (e :: es)).
Proof. apply (foldl_observe_succeeded (AddEntry _ e)). Qed.

(** The children of an object node after a run of object-valued entries. *)
Lemma foldl_AddEntry_object es children :
  Forall (λ e, ∃ mapEntry, Value e = VMap mapEntry) es →
  ∃ children',
    foldl AddEntry (objectSG children) es = objectSG children' ∧
    ∀ key,
      children' !! key =
      foldl (observe_field key) (children !! key)
        ((λ e, match Value e with VMap m => m | _ => ∅ end) <$> es).
Proof.
  intros Hes. revert children.
  induction Hes as [|e es [mapEntry HV] _ IH]; intros children; simpl.
  { by eexists. }
  rewrite AddEntry_unfold, HV.
  edestruct IH as (children' & -> & Hchildren'). eexists. split; [done|].
  intros key. rewrite Hchildren'. f_equal.
  apply (object_loop_lookup (λ key v sg, AddEntry sg (mkEntry 0 key v))).
Qed.

Lemma AddEntry_number sg g e x :
  sg = numericSG g → is_number x (Value e) →
  AddEntry sg e = numericSG (observe_number g (Float64.of_int x)).
Proof.
  intros -> Hx. rewrite AddEntry_unfold.
  unfold numericStatGenerator.AddEntry, is_number in *. rewrite Hx.
  unfold observe_number. destruct g as [ty c mn mx]; simpl.
  repeat case_match; simpl in *; congruence.
Qed.

Lemma newStatGenerator_number x val :
  is_number x val →
  ∃ ty, newStatGenerator val =
        numericSG (numericStatGenerator.mk ty 0
                     (Float64.of_int GoInt.maxInt)
                     (Float64.of_int GoInt.minInt)).
Proof. destruct val; try done; intros _; by eexists. Qed.

(** C1. When the first five reads of the wrapped reader succeed with
    object-valued entries whose field [n] holds 1, 2, 3, 4 and 5, the
    summary the aggregator reports is an object in which [n] has
    [{count: 5, min: 1, max: 5}], and in which a field that was null in all
    five entries has [{count: 5}]. *)
Theorem five_object_entries_summary {R : Type} `{!dsio.EntryReader R}
    (r r' : R) (es : list Entry) :
  dsio.ReadEntries dsio.ReadEntry 5 r = (succeeded es, r') →
  Forall2 (λ x, has_field "n" (is_number x)) [1; 2; 3; 4; 5]%Z es →
  ∃ summary,
    BasicStatsGenerator.Stats
      (dsio.ReadEntries BasicStatsGenerator.ReadEntry 5
         (NewBasicStatsGenerator r).1).2 = Returned (VMap summary) ∧
    summary !! "n" =
      Some (VMap {[ "count" := VInt 5; "min" := VFloat64 1%float;
                    "max" := VFloat64 5%float ]}) ∧
    ∀ z, Forall (has_field z (λ val, val = VNil)) es →
         summary !! z = Some (count_alone 5).
Proof.
  intros Hread Hn. rewrite ReadEntries_observe.
  unfold NewBasicStatsGenerator.
  cbn [fst BasicStatsGenerator.r BasicStatsGenerator.stats].
  rewrite Hread. cbn [snd].
  apply Forall2_cons_inv_l in Hn as (e1 & ? & (m1 & v1 & HV1 & Hm1 & Hv1) & Hn & ->).
  apply Forall2_cons_inv_l in Hn as (e2 & ? & (m2 & v2 & HV2 & Hm2 & Hv2) & Hn & ->).
  apply Forall2_cons_inv_l in Hn as (e3 & ? & (m3 & v3 & HV3 & Hm3 & Hv3) & Hn & ->).
  apply Forall2_cons_inv_l in Hn as (e4 & ? & (m4 & v4 & HV4 & Hm4 & Hv4) & Hn & ->).
  apply Forall2_cons_inv_l in Hn as (e5 & ? & (m5 & v5 & HV5 & Hm5 & Hv5) & Hn & ->).
  apply Forall2_nil_inv_l in Hn as ->.
  rewrite foldl_observe_first. unfold BasicStatsGenerator.Stats.
  cbn [BasicStatsGenerator.stats]. rewrite HV1. simpl newStatGenerator.
  edestruct (foldl_AddEntry_object [e1; e2; e3; e4; e5] ∅)
    as (children' & -> & Hchildren').
  { repeat constructor; by eexists. }
  eexists. split; [done|].
  assert (∀ key, children' !! key =
            foldl (observe_field key) None [m1; m2; m3; m4; m5]) as Hfields.
  { intros key. rewrite Hchildren'. cbn [fmap list_fmap].
    by rewrite HV1, HV2, HV3, HV4, HV5, lookup_empty. }
  split.
  - rewrite lookup_fmap, Hfields. cbn [foldl]. unfold observe_field.
    rewrite Hm1, Hm2, Hm3, Hm4, Hm5. simpl default.
    destruct (newStatGenerator_number _ _ Hv1) as [ty ->].
    rewrite (AddEntry_number _ _ (mkEntry 0 "n" v1) 1 eq_refl Hv1).
    rewrite (AddEntry_number _ _ (mkEntry 0 "n" v2) 2 eq_refl Hv2).
    rewrite (AddEntry_number _ _ (mkEntry 0 "n" v3) 3 eq_refl Hv3).
    rewrite (AddEntry_number _ _ (mkEntry 0 "n" v4) 4 eq_refl Hv4).
    rewrite (AddEntry_number _ _ (mkEntry 0 "n" v5) 5 eq_refl Hv5).
    vm_compute. reflexivity.
  - intros z Hz. rewrite lookup_fmap, Hfields. cbn [foldl].
    assert (∀ e m, Value e = VMap m →
              has_field z (λ val, val = VNil) e → m !! z = Some VNil) as Hnull.
    { intros e m HV (m' & val & HV' & Hm' & ->). congruence. }
    apply Forall_cons in Hz as [Hz1 Hz]. apply Forall_cons in Hz as [Hz2 Hz].
    apply Forall_cons in Hz as [Hz3 Hz]. apply Forall_cons in Hz as [Hz4 Hz].
    apply Forall_cons in Hz as [Hz5 _].
    unfold observe_field.
    rewrite (Hnull e1 m1), (Hnull e2 m2), (Hnull e3 m3), (Hnull e4 m4),
      (Hnull e5 m5) by done.
    vm_compute. reflexivity.
Qed.

(** The two cases of [TestBasicStatsReader]. *)
Example TestBasicStatsReader_array_of_objects :
  statsAfterReadAll testObjectEntries =
  Returned (VMap (list_to_map
    (zip ["int"; "float"; "nil"; "bool"; "string"] testExpect))).
Proof. vm_compute. reflexivity. Qed.

Example TestBasicStatsReader_object_of_arrays :
  statsAfterReadAll testArrayEntries = Returned (VArray testExpect).
Proof. vm_compute. reflexivity. Qed.

(* ===================================================================== *)
(** ** Construction of readers and writers *)
(* ===================================================================== *)

(** C4. With an empty format, constructing a reader or a writer fails with
    "structure must have a data format" and leaves the stream, respectively
    the sink, untouched, whatever the stream holds; with one of the formats
    csv, json and cbor and a schema that declares its top-level type,
    construction succeeds. *)
Theorem empty_format_fails_at_construction (st : dataset.Structure)
    (stream : dsio.ByteStream) (sink : dsio.ByteSink) :
  (dataset.Format st = "" →
   dsio.NewEntryReader st stream =
     ((None, Some "structure must have a data format"), stream) ∧
   dsio.NewEntryWriter st sink =
     ((None, Some "structure must have a data format"), sink)) ∧
  (dataset.Format st ∈ ["csv"; "json"; "cbor"] →
   is_Some (dataset.topLevelType st) →
   ∃ reader writer,
     dsio.NewEntryReader st stream = ((Some reader, None), stream) ∧
     dsio.NewEntryWriter st sink = ((Some writer, None), sink)).
Proof.
  unfold dsio.NewEntryReader, dsio.NewEntryWriter, dsio.dispatch. split.
  - intros ->. by rewrite !decide_True.
  - intros Hformat [tlt Htlt]. rewrite Htlt.
    assert (dataset.Format st ≠ "" ∧
            is_Some (dsio.ParseDataFormat (dataset.Format st)))
      as [Hne [format Hparse]].
    { rewrite !elem_of_cons in Hformat.
      destruct Hformat as [->|[->|[->|Hnil]]]; try (by split; [|eexists]).
      by apply elem_of_nil in Hnil. }
    rewrite !decide_False, Hparse by done. by eexists _, _.
Qed.

(* ===================================================================== *)
(** ** The properties at concrete inputs *)
(* ===================================================================== *)

Lemma five_object_entries_summary_witness :
  ∃ summary,
    statsAfterReadAll fiveEntries = Returned (VMap summary) ∧
    summary !! "n" =
      Some (VMap {[ "count" := VInt 5; "min" := VFloat64 1%float;
                    "max" := VFloat64 5%float ]}) ∧
    summary !! "z" = Some (count_alone 5).
Proof.
  destruct (five_object_entries_summary (sliceReader fiveEntries)
              (sliceReader []) fiveEntries) as (summary & Hstats & Hn & Hz).
  - vm_compute. reflexivity.
  - repeat constructor; eexists _, _;
      (split; [reflexivity|split; [vm_compute; reflexivity|reflexivity]]).
  - exists summary. split; [|split; [exact Hn|]].
    + vm_compute. vm_compute in Hstats. exact Hstats.
    + apply Hz. repeat constructor; eexists _, _;
        (split; [reflexivity|split; [vm_compute; reflexivity|reflexivity]]).
Defined.

Lemma variant_fixed_by_first_value_witness :
  AddEntry (newStatGenerator (VInt 1)) (mkEntry 1 "" (VString "a")) =
  newStatGenerator (VInt 1).
Proof.
  apply (proj1 (proj2 (proj2 variant_fixed_by_first_value))).
  simpl. discriminate.
Defined.

Lemma failed_read_leaves_stats_alone_witness :
  BasicStatsGenerator.ReadEntry (NewBasicStatsGenerator (sliceReader [])).1 =
  ((mkEntry 0 "" VNil, Some dsio.EOF),
   (NewBasicStatsGenerator (sliceReader [])).1).
Proof.
  apply (failed_read_leaves_stats_alone
           (NewBasicStatsGenerator (sliceReader [])).1).
  reflexivity.
Defined.

Lemma successful_read_is_forwarded_witness :
  let g := (NewBasicStatsGenerator (sliceReader fiveEntries)).1 in
  (BasicStatsGenerator.ReadEntry g).1 =
    (objectEntry 0 {[ "n" := VInt 1; "z" := VNil ]}, None) ∧
  BasicStatsGenerator.r (BasicStatsGenerator.ReadEntry g).2 =
    sliceReader (tail fiveEntries) ∧
  BasicStatsGenerator.Structure g = jsonArrayStructure.
Proof.
  intros g.
  exact (successful_read_is_forwarded g
           (objectEntry 0 {[ "n" := VInt 1; "z" := VNil ]})
           (sliceReader (tail fiveEntries)) eq_refl).
Defined.

Lemma composite_nodes_fan_out_witness :
  ∃ children',
    AddEntry (objectSG ∅) (objectEntry 0 {[ "n" := VInt 1 ]}) =
      objectSG children' ∧
    children' !! "n" =
      Some (AddEntry (newStatGenerator (VInt 1)) (mkEntry 0 "n" (VInt 1))).
Proof.
  destruct (proj1 (composite_nodes_fan_out (objectEntry 0 {[ "n" := VInt 1 ]}))
              ∅ {[ "n" := VInt 1 ]} eq_refl) as (children' & Hadd & Hlookup).
  exists children'. split; [exact Hadd|].
  rewrite Hlookup. vm_compute. reflexivity.
Defined.


Lemma stats_and_close_fault_before_first_entry_witness :
  let g := (dsio.ReadEntries BasicStatsGenerator.ReadEntry 2
              (NewBasicStatsGenerator (sliceReader [])).1).2 in
  BasicStatsGenerator.stats g = None ∧
  BasicStatsGenerator.Stats g = Panicked ∧
  BasicStatsGenerator.Close g = Panicked.
Proof.
  apply (stats_and_close_fault_before_first_entry (sliceReader []) 2
           [(mkEntry 0 "" VNil, Some dsio.EOF);
            (mkEntry 0 "" VNil, Some dsio.EOF)]).
  - reflexivity.
  - repeat constructor; by eexists.
Defined.

Lemma empty_format_fails_at_construction_witness :
  (dsio.NewEntryReader emptyStructure (dsio.mkByteStream [] 0) =
     ((None, Some "structure must have a data format"),
      dsio.mkByteStream [] 0) ∧
   dsio.NewEntryWriter emptyStructure [] =
     ((None, Some "structure must have a data format"), [])) ∧
  ∃ reader writer,
    dsio.NewEntryReader jsonArrayStructure (dsio.mkByteStream [] 0) =
      ((Some reader, None), dsio.mkByteStream [] 0) ∧
    dsio.NewEntryWriter jsonArrayStructure [] = ((Some writer, None), []).
Proof.
  split.
  - apply (proj1 (empty_format_fails_at_construction emptyStructure
                    (dsio.mkByteStream [] 0) [])).
    reflexivity.
  - apply (proj2 (empty_format_fails_at_construction jsonArrayStructure
                    (dsio.mkByteStream [] 0) [])).
    + vm_compute. right. left.
    + vm_compute. by eexists.
Defined.

(* ===================================================================== *)
(** ** Counting in Go's [int] *)
(* ===================================================================== *)

Lemma minInt_value : GoInt.minInt = (- 2 ^ 63)%Z.
Proof. reflexivity. Qed.

Lemma maxInt_value : GoInt.maxInt = (2 ^ 63 - 1)%Z.
Proof. reflexivity. Qed.

Lemma wrap_in_range x : (GoInt.minInt ≤ GoInt.wrap x ≤ GoInt.maxInt)%Z.
Proof.
  unfold GoInt.wrap. rewrite minInt_value, maxInt_value.
  change (2 ^ GoInt.intBits)%Z with (2 ^ 64)%Z.
  pose proof (Z.mod_pos_bound (x - - 2 ^ 63) (2 ^ 64)) as Hmod. lia.
Qed.

Lemma wrap_small x :
  (GoInt.minInt ≤ x ≤ GoInt.maxInt)%Z → GoInt.wrap x = x.
Proof.
  unfold GoInt.wrap. rewrite minInt_value, maxInt_value.
  change (2 ^ GoInt.intBits)%Z with (2 ^ 64)%Z.
  intros Hx. rewrite Z.mod_small; lia.
Qed.

Lemma wrap_add_l x y : GoInt.wrap (GoInt.wrap x + y) = GoInt.wrap (x + y).
Proof.
  unfold GoInt.wrap. f_equal.
  replace ((x - GoInt.minInt) `mod` 2 ^ GoInt.intBits + GoInt.minInt + y
           - GoInt.minInt)%Z
    with ((x - GoInt.minInt) `mod` 2 ^ GoInt.intBits + y)%Z by lia.
  rewrite Z.add_mod_idemp_l by done. f_equal. lia.
Qed.

Lemma incr_wrap x : GoInt.incr (GoInt.wrap x) = GoInt.wrap (x + 1).
Proof. apply wrap_add_l. Qed.

Lemma incr_in_range x : (GoInt.minInt ≤ GoInt.incr x ≤ GoInt.maxInt)%Z.
Proof. apply wrap_in_range. Qed.

Lemma wrap_incr_add x n :
  GoInt.wrap (GoInt.incr x + n) = GoInt.wrap (x + (1 + n)).
Proof. unfold GoInt.incr. rewrite wrap_add_l. f_equal. lia. Qed.

(* ===================================================================== *)
(** ** What the leaf nodes accumulate *)
(* ===================================================================== *)

Lemma leaf_count_AddEntry_own sg e c :
  leaf_count sg = Some c →
  typeVariant (Value e) = Some (variant sg) →
  leaf_count (AddEntry sg e) = Some (GoInt.incr c).
Proof.
  rewrite AddEntry_unfold. destruct e as [i k v].
  destruct sg as [[]|[]|[]|[]| |]; simpl; intros [= <-]; destruct v; try done;
    intros _; simpl.
  all: unfold numericStatGenerator.AddEntry, stringStatGenerator.AddEntry,
         boolStatGenerator.AddEntry; simpl;
    repeat case_match; done.
Qed.

Lemma own_values_AddEntry sg e es :
  own_values (AddEntry sg e) es = own_values sg es.
Proof. unfold own_values. by rewrite variant_AddEntry. Qed.

(** X1. The count of a leaf node goes up by one for every observed value of its
    own variant and for no other value; it wraps around like any [int]. *)
Theorem leaf_count_counts_own_values (sg : statGenerator) (c : Z)
    (es : list Entry) :
  leaf_count sg = Some c →
  (GoInt.minInt ≤ c ≤ GoInt.maxInt)%Z →
  leaf_count (foldl AddEntry sg es) =
  Some (GoInt.wrap (c + Z.of_nat (length (own_values sg es)))).
Proof.
  revert sg c. induction es as [|e es IH]; intros sg c Hc Hrange; simpl.
  { rewrite Z.add_0_r, wrap_small by done. done. }
  destruct (decide (typeVariant (Value e) = Some (variant sg))) as [Hown|Hother].
  - rewrite (IH _ (GoInt.incr c)), own_values_AddEntry;
      [|by apply leaf_count_AddEntry_own|apply incr_in_range].
    unfold own_values at 2. rewrite filter_cons_True by done.
    fold (own_values sg es). simpl length. rewrite wrap_incr_add.
    do 2 f_equal. lia.
  - rewrite AddEntry_other_type by done.
    unfold own_values at 1. rewrite filter_cons_False by done.
    by apply IH.
Qed.

Lemma string_lengths_cons e es :
  string_lengths (e :: es) =
  match Value e with
  | VString str => stringStatGenerator.len str :: string_lengths es
  | _ => string_lengths es
  end.
Proof. unfold string_lengths. simpl. by destruct (Value e). Qed.

Lemma foldl_AddEntry_string c mn mx es :
  (GoInt.minInt ≤ c ≤ GoInt.maxInt)%Z →
  foldl AddEntry (stringSG (stringStatGenerator.mk c mn mx)) es =
  stringSG (stringStatGenerator.mk
              (GoInt.wrap (c + Z.of_nat (length (string_lengths es))))
              (foldl Z.min mn (string_lengths es))
              (foldl Z.max mx (string_lengths es))).
Proof.
  revert c mn mx. induction es as [|e es IH]; intros c mn mx Hc.
  { simpl. by rewrite Z.add_0_r, wrap_small. }
  cbn [foldl]. rewrite string_lengths_cons, AddEntry_unfold.
  unfold stringStatGenerator.AddEntry.
  destruct (Value e) as [| | | | |str| | |]; try by apply IH.
  cbn [stringStatGenerator.count stringStatGenerator.minLength
       stringStatGenerator.maxLength].
  set (n := stringStatGenerator.len str).
  replace (if (n <? mn)%Z
           then stringStatGenerator.mk (GoInt.incr c) n mx
           else stringStatGenerator.mk (GoInt.incr c) mn mx)
    with (stringStatGenerator.mk (GoInt.incr c) (Z.min mn n) mx)
    by (destruct (Z.ltb_spec n mn); f_equal; lia).
  cbn [stringStatGenerator.count stringStatGenerator.minLength
       stringStatGenerator.maxLength].
  replace (if (n >? mx)%Z
           then stringStatGenerator.mk (GoInt.incr c) (Z.min mn n) n
           else stringStatGenerator.mk (GoInt.incr c) (Z.min mn n) mx)
    with (stringStatGenerator.mk (GoInt.incr c) (Z.min mn n) (Z.max mx n))
    by (rewrite Z.gtb_ltb; destruct (Z.ltb_spec mx n); f_equal; lia).
  rewrite IH by apply incr_in_range. simpl length. simpl foldl.
  rewrite wrap_incr_add. do 3 f_equal. lia.
Qed.

(** X2. A string node chosen for a first string value and then fed any entries
    holds the number of strings among them as count, the least of their
    lengths (and of [maxInt]) as minLength and the greatest of their lengths
    (and of [minInt]) as maxLength; values that are not strings change
    nothing. *)
Theorem string_node_length_bounds (first : string) (es : list Entry) :
  foldl AddEntry (newStatGenerator (VString first)) es =
  stringSG (stringStatGenerator.mk
              (GoInt.wrap (Z.of_nat (length (string_lengths es))))
              (foldl Z.min GoInt.maxInt (string_lengths es))
              (foldl Z.max GoInt.minInt (string_lengths es))).
Proof. simpl newStatGenerator. by rewrite foldl_AddEntry_string. Qed.

Lemma count_bool_cons b e es :
  count_bool b (e :: es) =
  ((if holds_bool b e then 1 else 0) + count_bool b es)%Z.
Proof.
  unfold count_bool. rewrite filter_cons.
  destruct (holds_bool b e); simpl; lia.
Qed.

Lemma foldl_AddEntry_bool c t f es :
  (GoInt.minInt ≤ c ≤ GoInt.maxInt)%Z →
  (GoInt.minInt ≤ t ≤ GoInt.maxInt)%Z →
  (GoInt.minInt ≤ f ≤ GoInt.maxInt)%Z →
  foldl AddEntry (boolSG (boolStatGenerator.mk c t f)) es =
  boolSG (boolStatGenerator.mk
            (GoInt.wrap (c + (count_bool true es + count_bool false es)))
            (GoInt.wrap (t + count_bool true es))
            (GoInt.wrap (f + count_bool false es))).
Proof.
  revert c t f. induction es as [|e es IH]; intros c t f Hc Ht Hf.
  { simpl. unfold count_bool. simpl.
    by rewrite !Z.add_0_r, !wrap_small. }
  cbn [foldl]. rewrite AddEntry_unfold, !count_bool_cons.
  unfold boolStatGenerator.AddEntry, holds_bool.
  destruct (Value e) as [|b| | | | | | |];
    try (rewrite !Z.add_0_l; by apply IH).
  destruct b; cbn [boolStatGenerator.count boolStatGenerator.trueCount
                   boolStatGenerator.falseCount bool_decide decide_rel];
    rewrite IH by (done || apply incr_in_range);
    rewrite ?wrap_incr_add; simpl; f_equal; f_equal; f_equal; lia.
Qed.

(** X3. A boolean node chosen for a first boolean and then fed any entries
    holds the number of [true] values as trueCount, the number of [false]
    values as falseCount and their sum as count. *)
Theorem bool_node_tallies (first : bool) (es : list Entry) :
  foldl AddEntry (newStatGenerator (VBool first)) es =
  boolSG (boolStatGenerator.mk
            (GoInt.wrap (count_bool true es + count_bool false es))
            (GoInt.wrap (count_bool true es))
            (GoInt.wrap (count_bool false es))).
Proof.
  simpl newStatGenerator. rewrite foldl_AddEntry_bool.
  - done.
  - rewrite minInt_value, maxInt_value. lia.
  - rewrite minInt_value, maxInt_value. lia.
  - rewrite minInt_value, maxInt_value. lia.
Qed.

(** X4. A node chosen for a value of a type the package has no case for is a
    null node; fed entries none of which is nil, it reports [{count: 0}]
    however many there are. *)
Theorem unsupported_type_is_never_counted (ty : string) (es : list Entry) :
  Forall (λ e, typeVariant (Value e) ≠ Some NullV) es →
  Stats (foldl AddEntry (newStatGenerator (VOther ty)) es) = count_alone 0.
Proof.
  simpl newStatGenerator. induction 1 as [|e es He _ IH]; simpl; [done|].
  by rewrite AddEntry_other_type.
Qed.

Lemma AddEntry_numeric g e :
  AddEntry (numericSG g) e =
  numericSG (match numericStatGenerator.toFloat64 (Value e) with
             | Some v => observe_number g v
             | None => g
             end).
Proof.
  rewrite AddEntry_unfold. unfold numericStatGenerator.AddEntry.
  destruct (numericStatGenerator.toFloat64 (Value e)) as [v|]; [|done].
  unfold observe_number. destruct g as [ty c mn mx]; simpl.
  repeat case_match; simpl in *; congruence.
Qed.

Lemma foldl_AddEntry_numeric g es :
  foldl AddEntry (numericSG g) es =
  numericSG (foldl observe_number g (numbers es)).
Proof.
  revert g. induction es as [|e es IH]; intros g; [done|].
  cbn [foldl]. rewrite AddEntry_numeric, IH. unfold numbers. simpl.
  by destruct (numericStatGenerator.toFloat64 (Value e)).
Qed.

Lemma observe_numbers_bounds g vs :
  numericStatGenerator.typ (foldl observe_number g vs) =
    numericStatGenerator.typ g ∧
  (numericStatGenerator.min (foldl observe_number g vs) =
     numericStatGenerator.min g ∨
   numericStatGenerator.min (foldl observe_number g vs) ∈ vs) ∧
  (numericStatGenerator.max (foldl observe_number g vs) =
     numericStatGenerator.max g ∨
   numericStatGenerator.max (foldl observe_number g vs) ∈ vs).
Proof.
  revert g. induction vs as [|v vs IH]; intros g; cbn [foldl]; [by auto|].
  destruct (IH (observe_number g v)) as (Htyp & Hmin & Hmax).
  split; [by rewrite Htyp|]. split.
  - destruct Hmin as [Hmin|Hin]; [|right; by right].
    rewrite Hmin. cbn [observe_number numericStatGenerator.min].
    case_match; [right; by left|by left].
  - destruct Hmax as [Hmax|Hin]; [|right; by right].
    rewrite Hmax. cbn [observe_number numericStatGenerator.max].
    case_match; [right; by left|by left].
Qed.

(** X5. A numeric node never invents a bound: after any entries its min is the
    min it started with or one of the numbers it was fed, and likewise its
    max; its typ stays what it was. *)
Theorem numeric_bounds_come_from_input (g : numericStatGenerator.t)
    (es : list Entry) :
  ∃ g',
    foldl AddEntry (numericSG g) es = numericSG g' ∧
    numericStatGenerator.typ g' = numericStatGenerator.typ g ∧
    (numericStatGenerator.min g' = numericStatGenerator.min g ∨
     numericStatGenerator.min g' ∈ numbers es) ∧
    (numericStatGenerator.max g' = numericStatGenerator.max g ∨
     numericStatGenerator.max g' ∈ numbers es).
Proof.
  exists (foldl observe_number g (numbers es)).
  split; [apply foldl_AddEntry_numeric|apply observe_numbers_bounds].
Qed.

(** X6. The bounds a numeric node starts with are [float64(maxInt)] for min and
    [float64(minInt)] for max.  When no number it is fed is below
    [float64(maxInt)], min is still [float64(maxInt)] afterwards, and when
    none is above [float64(minInt)], max is still [float64(minInt)]. *)
Theorem numeric_sentinel_survives (val : GoValue) (es : list Entry) :
  typeVariant val = Some NumericV →
  ∃ g',
    foldl AddEntry (newStatGenerator val) es = numericSG g' ∧
    (Forall (λ v, Float64.lt v (Float64.of_int GoInt.maxInt) = false)
       (numbers es) →
     numericStatGenerator.min g' = Float64.of_int GoInt.maxInt) ∧
    (Forall (λ v, Float64.gt v (Float64.of_int GoInt.minInt) = false)
       (numbers es) →
     numericStatGenerator.max g' = Float64.of_int GoInt.minInt).
Proof.
  intros Hval.
  assert (∃ g, newStatGenerator val = numericSG g ∧
               numericStatGenerator.min g = Float64.of_int GoInt.maxInt ∧
               numericStatGenerator.max g = Float64.of_int GoInt.minInt)
    as (g & -> & Hmin & Hmax).
  { destruct val; try done; by eexists. }
  exists (foldl observe_number g (numbers es)).
  split; [apply foldl_AddEntry_numeric|]. rewrite <-Hmin, <-Hmax.
  clear Hmin Hmax Hval. generalize (numbers es). intros vs. split.
  - intros Hvs. remember (numericStatGenerator.min g) as mn eqn:Hmn.
    revert g Hmn. induction Hvs as [|v vs Hv _ IH]; intros g Hmn; [done|].
    cbn [foldl]. apply IH. cbn [observe_number numericStatGenerator.min].
    by rewrite <-Hmn, Hv.
  - intros Hvs. remember (numericStatGenerator.max g) as mx eqn:Hmx.
    revert g Hmx. induction Hvs as [|v vs Hv _ IH]; intros g Hmx; [done|].
    cbn [foldl]. apply IH. cbn [observe_number numericStatGenerator.max].
    by rewrite <-Hmx, Hv.
Qed.

(* ===================================================================== *)
(** ** What the composite nodes accumulate *)
(* ===================================================================== *)

Lemma map_values_cons e es :
  map_values (e :: es) =
  match Value e with
  | VMap m => m :: map_values es
  | _ => map_values es
  end.
Proof. unfold map_values. simpl. by destruct (Value e). Qed.

Lemma array_values_cons e es :
  array_values (e :: es) =
  match Value e with
  | VArray l => l :: array_values es
  | _ => array_values es
  end.
Proof. unfold array_values. simpl. by destruct (Value e). Qed.

Lemma foldl_AddEntry_object_any es children :
  ∃ children',
    foldl AddEntry (objectSG children) es = objectSG children' ∧
    ∀ key,
      children' !! key =
      foldl (observe_field key) (children !! key) (map_values es).
Proof.
  revert children. induction es as [|e es IH]; intros children.
  { by eexists. }
  cbn [foldl]. rewrite AddEntry_unfold, map_values_cons.
  destruct (Value e) as [| | | | | |m| |]; try apply IH.
  edestruct IH as (children' & -> & Hchildren'). eexists. split; [done|].
  intros key. rewrite Hchildren'. cbn [foldl]. f_equal.
  apply (object_loop_lookup (λ key v sg, AddEntry sg (mkEntry 0 key v))).
Qed.

Lemma is_Some_foldl_observe_field key child ms :
  is_Some (foldl (observe_field key) child ms) ↔
  is_Some child ∨ ∃ m, m ∈ ms ∧ is_Some (m !! key).
Proof.
  revert child. induction ms as [|m ms IH]; intros child; simpl.
  { split; [by left|]. intros [|(m & Hm & _)]; [done|].
    by apply elem_of_nil in Hm. }
  rewrite IH. unfold observe_field. split.
  - intros [Hchild|(m' & Hm' & Hkey)].
    + destruct (m !! key) as [val|] eqn:Hval; [|by left].
      right. exists m. split; [by left|by rewrite Hval].
    + right. exists m'. split; [by right|done].
  - intros [Hchild|(m' & Hm' & Hkey)].
    + left. by destruct (m !! key).
    + apply elem_of_cons in Hm' as [->|Hm'].
      * left. destruct Hkey as [val ->]. done.
      * right. by exists m'.
Qed.

(** X7. The summary of an object node has a field for every key the node had a
    child for and for every key of every map value it was fed, and for no
    other key. *)
Theorem object_summary_has_observed_keys
    (children : gmap string statGenerator) (es : list Entry) :
  ∃ summary,
    Stats (foldl AddEntry (objectSG children) es) = VMap summary ∧
    ∀ key,
      is_Some (summary !! key) ↔
      is_Some (children !! key) ∨
      ∃ m, m ∈ map_values es ∧ is_Some (m !! key).
Proof.
  destruct (foldl_AddEntry_object_any es children)
    as (children' & -> & Hchildren').
  eexists. split; [done|]. intros key.
  rewrite lookup_fmap, fmap_is_Some, Hchildren'.
  apply is_Some_foldl_observe_field.
Qed.

Lemma foldl_AddEntry_array_any es (children : list statGenerator) :
  ∃ children',
    foldl AddEntry (arraySG children) es = arraySG children' ∧
    length children' =
    foldl Nat.max (length children) (length <$> array_values es).
Proof.
  revert children. induction es as [|e es IH]; intros children.
  { by eexists. }
  cbn [foldl]. rewrite AddEntry_unfold, array_values_cons.
  destruct (Value e) as [| | | | | | |l|]; try apply IH.
  edestruct IH as (children' & -> & Hlength). eexists. split; [done|].
  rewrite Hlength. cbn [fmap list_fmap foldl]. f_equal.
  by rewrite (array_loop_length
                (λ i v sg, AddEntry sg (mkEntry (Z.of_nat i) "" v))) by lia.
Qed.

(** X8. The summary of an array node is a sequence as long as the longest of
    the children it had and the sequence values it was fed. *)
Theorem array_summary_length (children : list statGenerator)
    (es : list Entry) :
  ∃ summaries,
    Stats (foldl AddEntry (arraySG children) es) = VArray summaries ∧
    length summaries =
    foldl Nat.max (length children) (length <$> array_values es).
Proof.
  destruct (foldl_AddEntry_array_any es children)
    as (children' & -> & Hlength).
  eexists. split; [done|]. by rewrite length_fmap.
Qed.

Lemma object_loop_in_order_lookup
    (add : string → GoValue → statGenerator → statGenerator)
    (order : list (string * GoValue)) children k :
  NoDup order.*1 →
  object_loop_in_order add order children !! k =
  match (list_to_map order : gmap string GoValue) !! k with
  | Some val =>
      Some (add k val (default (newStatGenerator val) (children !! k)))
  | None => children !! k
  end.
Proof.
  unfold object_loop_in_order. revert children.
  induction order as [|[key val] order IH]; intros children Hnodup.
  { cbn [foldl list_to_map foldr]. by rewrite lookup_empty. }
  apply NoDup_cons in Hnodup as [Hfresh Hnodup].
  cbn [foldl fst snd]. rewrite IH by done. cbn [list_to_map foldr].
  rewrite object_step_lookup. case_decide as Hk; subst.
  - rewrite lookup_insert_eq.
    by rewrite (not_elem_of_list_to_map_1 order key).
  - by rewrite lookup_insert_ne.
Qed.

(** X9. Go does not fix the order in which a map is ranged over.  Whatever the
    order in which the loop of an object node visits the fields of a map
    value, the children it leaves are the same. *)
Theorem object_loop_order_irrelevant
    (add : string → GoValue → statGenerator → statGenerator)
    (mapEntry : gmap string GoValue) (order : list (string * GoValue))
    (children : gmap string statGenerator) :
  order ≡ₚ map_to_list mapEntry →
  object_loop_in_order add order children =
  map_fold (λ key val ch, object_step (add key) key val ch) children mapEntry.
Proof.
  intros Horder. apply map_eq. intros k.
  assert (NoDup order.*1) as Hnodup.
  { rewrite Horder. apply NoDup_fst_map_to_list. }
  rewrite object_loop_in_order_lookup, object_loop_lookup by done.
  rewrite (list_to_map_proper order (map_to_list mapEntry)) by done.
  by rewrite list_to_map_to_list.
Qed.

(** X10. Observing an entry never removes a child of a composite node and never
    changes the variant of a child: the child an object node holds for a
    key, or an array node at a position, is still there afterwards, with
    the variant it had. *)
Theorem children_keep_variant (e : Entry) (child : statGenerator) :
  (∀ (children : gmap string statGenerator) key,
     children !! key = Some child →
     ∃ children' child',
       AddEntry (objectSG children) e = objectSG children' ∧
       children' !! key = Some child' ∧
       variant child' = variant child) ∧
  (∀ (children : list statGenerator) i,
     children !! i = Some child →
     ∃ children' child',
       AddEntry (arraySG children) e = arraySG children' ∧
       children' !! i = Some child' ∧
       variant child' = variant child).
Proof.
  split.
  - intros children key Hchild. rewrite AddEntry_unfold.
    destruct (Value e) as [| | | | | |m| |]; try by eexists _, _.
    pose proof (object_loop_lookup
                  (λ key v sg, AddEntry sg (mkEntry 0 key v)) children m key)
      as Hlookup.
    rewrite Hchild in Hlookup.
    destruct (m !! key) as [val|]; eexists _, _; (split; [done|]);
      (split; [exact Hlookup|]); [apply variant_AddEntry|done].
  - intros children i Hchild. rewrite AddEntry_unfold.
    destruct (Value e) as [| | | | | | |l|]; try by eexists _, _.
    pose proof (array_loop_lookup
                  (λ i v sg, AddEntry sg (mkEntry (Z.of_nat i) "" v))
                  0 l children i (Nat.le_0_l _)) as Hlookup.
    rewrite decide_False, Nat.sub_0_r, Hchild in Hlookup by lia.
    destruct (l !! i) as [val|]; eexists _, _; (split; [done|]);
      (split; [exact Hlookup|]); [apply variant_AddEntry|done].
Qed.

Lemma array_step_checked_Some (add : GoValue → statGenerator → statGenerator)
    i val (children : list statGenerator) :
  i ≤ length children →
  array_step_checked add i val children = Some (array_step add i val children).
Proof.
  intros Hle. unfold array_step_checked, array_step.
  by destruct (array_step_in_range i val children Hle) as [child ->].
Qed.

Lemma array_loop_checked_Some
    (add : nat → GoValue → statGenerator → statGenerator)
    i arrayEntry (children : list statGenerator) :
  i ≤ length children →
  array_loop_checked add i arrayEntry children =
  Some (range_from (λ i val ch, array_step (add i) i val ch)
          i arrayEntry children).
Proof.
  revert i children. induction arrayEntry as [|val l IH]; intros i ch Hle;
    simpl; [done|].
  rewrite array_step_checked_Some by done.
  apply IH. rewrite array_step_length by done. lia.
Qed.

(** X11. The loop of an array node never indexes its children out of range:
    run with the bounds check of the index expression, it completes for
    every sequence value and every children the node may hold, and leaves
    the children [AddEntry] leaves. *)
Theorem array_loop_never_out_of_range (children : list statGenerator)
    (e : Entry) (arrayEntry : list GoValue) :
  Value e = VArray arrayEntry →
  ∃ children',
    array_loop_checked (λ i v sg, AddEntry sg (mkEntry (Z.of_nat i) "" v))
      0 arrayEntry children = Some children' ∧
    AddEntry (arraySG children) e = arraySG children'.
Proof.
  intros HV. eexists. split.
  - apply array_loop_checked_Some. lia.
  - by rewrite AddEntry_unfold, HV.
Qed.

(* ===================================================================== *)
(** ** More on the aggregator *)
(* ===================================================================== *)

(** X12. Reading [n] times through the aggregator gives the results the wrapped
    reader gives when read [n] times directly, and leaves the wrapped
    reader in the state those reads leave it in. *)
Theorem aggregator_is_transparent {R : Type} `{!dsio.EntryReader R}
    (g : BasicStatsGenerator.t R) (n : nat) :
  (dsio.ReadEntries BasicStatsGenerator.ReadEntry n g).1 =
    (dsio.ReadEntries dsio.ReadEntry n (BasicStatsGenerator.r g)).1 ∧
  BasicStatsGenerator.r (dsio.ReadEntries BasicStatsGenerator.ReadEntry n g).2 =
    (dsio.ReadEntries dsio.ReadEntry n (BasicStatsGenerator.r g)).2.
Proof.
  rewrite ReadEntries_observe. by destruct (dsio.ReadEntries _ _ _).
Qed.


Lemma foldl_observe_is_Some results stats :
  is_Some stats ∨ is_Some (firstRead results) →
  is_Some (foldl observe stats results).
Proof.
  revert stats. induction results as [|[ent [err|]] results IH];
    intros stats; simpl.
  - intros [|[]]; done.
  - intros H. by apply IH.
  - intros _. apply IH. left. by eexists.
Qed.

(** X14. Once one read through the aggregator has succeeded, its statistics
    root is chosen, and [Stats] and [Close] return instead of faulting,
    whatever was read afterwards. *)
Theorem stats_and_close_return_after_first_entry {R : Type}
    `{!dsio.EntryReader R} (r : R) (n : nat)
    (results : list (Entry * option error)) (g : BasicStatsGenerator.t R) :
  dsio.ReadEntries BasicStatsGenerator.ReadEntry n (NewBasicStatsGenerator r).1
    = (results, g) →
  is_Some (firstRead results) →
  ∃ sg,
    BasicStatsGenerator.stats g = Some sg ∧
    BasicStatsGenerator.Stats g = Returned (Stats sg) ∧
    BasicStatsGenerator.Close g =
      Returned ((dsio.Close (BasicStatsGenerator.r g)).1,
                {| BasicStatsGenerator.r :=
                     (dsio.Close (BasicStatsGenerator.r g)).2;
                   BasicStatsGenerator.stats := Some sg |}).
Proof.
  rewrite ReadEntries_observe. simpl.
  destruct (dsio.ReadEntries _ _ _) as [results' r'].
  intros [= <- <-] Hfirst.
  destruct (foldl_observe_is_Some results' None) as [sg Hsg]; [by right|].
  exists sg. unfold BasicStatsGenerator.Stats, BasicStatsGenerator.Close.
  simpl. rewrite Hsg. split; [done|]. split; [done|].
  by destruct (dsio.Close r').
Qed.

(* ===================================================================== *)
(** ** [TransformPod.Assign] *)
(* ===================================================================== *)

Section pod_assign.
Context {StructurePod : Type}.
Implicit Types (this that : TransformPod.t StructurePod)
  (ts : list (TransformPod.t StructurePod))
  (σ : gmap nat (TransformPod.t StructurePod))
  (tp : nat) (tps : list (option nat)).

Lemma last_non_empty_snoc xs x x0 :
  last_non_empty (xs ++ [x]) x0 =
  TransformPod.set_if_not_empty (last_non_empty xs x0) x.
Proof.
  unfold last_non_empty, TransformPod.set_if_not_empty.
  rewrite filter_app, filter_cons, filter_nil.
  destruct (decide (x = "")) as [->|Hx].
  - rewrite decide_False by (intros H; by apply H). by rewrite app_nil_r.
  - rewrite decide_True by done. by rewrite last_snoc.
Qed.

Lemma last_non_nil_snoc {A} (xs : list (option A)) x x0 :
  last_non_nil (xs ++ [x]) x0 =
  TransformPod.set_if_not_nil (last_non_nil xs x0) x.
Proof.
  unfold last_non_nil, TransformPod.set_if_not_nil.
  rewrite filter_app, filter_cons, filter_nil. destruct x as [a|].
  - rewrite decide_True by done. by rewrite last_snoc.
  - rewrite decide_False by (by intros []). by rewrite app_nil_r.
Qed.

Lemma non_nil_snoc {A} (xs : list (option A)) x :
  non_nil (xs ++ [x]) =
  match x with Some a => non_nil xs ++ [a] | None => non_nil xs end.
Proof.
  unfold non_nil. rewrite omap_app. destruct x; simpl; [done|].
  by rewrite app_nil_r.
Qed.

(** The fields of a pod after the loop body has run on it with the pods
    [ts] in turn. *)
Lemma Assign_fields this ts :
  let r := foldl TransformPod.Assign_one this ts in
  TransformPod.Config r =
    last_non_nil (TransformPod.Config <$> ts) (TransformPod.Config this) ∧
  TransformPod.TransformPath r =
    last_non_empty (TransformPod.TransformPath <$> ts)
      (TransformPod.TransformPath this) ∧
  TransformPod.Path r =
    last_non_empty (TransformPod.Path <$> ts) (TransformPod.Path this) ∧
  TransformPod.Qri r =
    last_non_empty (TransformPod.Qri <$> ts) (TransformPod.Qri this) ∧
  TransformPod.Resources r =
    last_non_nil (TransformPod.Resources <$> ts)
      (TransformPod.Resources this) ∧
  TransformPod.Secrets r =
    last_non_nil (TransformPod.Secrets <$> ts) (TransformPod.Secrets this) ∧
  TransformPod.ScriptPath r =
    last_non_empty (TransformPod.ScriptPath <$> ts)
      (TransformPod.ScriptPath this) ∧
  TransformPod.ScriptBytes r =
    last_non_nil (TransformPod.ScriptBytes <$> ts)
      (TransformPod.ScriptBytes this) ∧
  TransformPod.Syntax r =
    last_non_empty (TransformPod.Syntax <$> ts) (TransformPod.Syntax this) ∧
  TransformPod.SyntaxVersion r =
    last_non_empty (TransformPod.SyntaxVersion <$> ts)
      (TransformPod.SyntaxVersion this) ∧
  TransformPod.Structure r = TransformPod.Structure this.
Proof.
  induction ts as [|that ts IH] using rev_ind; [done|].
  cbn zeta in *. rewrite foldl_app. cbn [foldl].
  rewrite !fmap_app. cbn [fmap list_fmap].
  rewrite !last_non_empty_snoc, !last_non_nil_snoc.
  destruct IH as (<- & <- & <- & <- & <- & <- & <- & <- & <- & <- & <-).
  done.
Qed.

Lemma last_non_empty_idem xs x0 :
  last_non_empty xs (last_non_empty xs x0) = last_non_empty xs x0.
Proof. unfold last_non_empty. by destruct (last _). Qed.

Lemma last_non_nil_idem {A} (xs : list (option A)) x0 :
  last_non_nil xs (last_non_nil xs x0) = last_non_nil xs x0.
Proof. unfold last_non_nil. by destruct (last _). Qed.

Lemma foldl_Assign_one_idem this ts :
  foldl TransformPod.Assign_one (foldl TransformPod.Assign_one this ts) ts =
  foldl TransformPod.Assign_one this ts.
Proof.
  pose proof (Assign_fields (foldl TransformPod.Assign_one this ts) ts) as H2.
  pose proof (Assign_fields this ts) as H1.
  cbn zeta in *.
  destruct H1 as (E1 & E2 & E3 & E4 & E5 & E6 & E7 & E8 & E9 & E10 & E11).
  rewrite E1, E2, E3, E4, E5, E6, E7, E8, E9, E10, E11 in H2.
  rewrite !last_non_empty_idem, !last_non_nil_idem in H2.
  rewrite <-E1, <-E2, <-E3, <-E4, <-E5, <-E6, <-E7, <-E8, <-E9, <-E10, <-E11
    in H2.
  destruct (foldl TransformPod.Assign_one
              (foldl TransformPod.Assign_one this ts) ts),
    (foldl TransformPod.Assign_one this ts). simpl in H2.
  destruct H2 as (-> & -> & -> & -> & -> & -> & -> & -> & -> & -> & ->).
  done.
Qed.

(** Assigning a pod to itself changes nothing. *)
Lemma Assign_one_self this : TransformPod.Assign_one this this = this.
Proof.
  destruct this as [c tpath pth qri rs sec st sp sb syn synv].
  unfold TransformPod.Assign_one, TransformPod.set_if_not_empty,
    TransformPod.set_if_not_nil. simpl.
  f_equal; repeat case_match; congruence.
Qed.

Lemma assigned_pods_insert σ tp tps this :
  assigned_pods (<[tp := this]> σ) tp tps = assigned_pods σ tp tps.
Proof.
  unfold assigned_pods. apply list_omap_ext, Forall2_same_length_lookup.
  split; [done|]. intros i l l' Hl Hl'. simplify_eq.
  case_decide; [done|]. by rewrite lookup_insert_ne.
Qed.

Lemma assigned_pods_cons σ tp a tps :
  assigned_pods σ tp (a :: tps) =
  match a with
  | None => assigned_pods σ tp tps
  | Some l =>
      if decide (l = tp) then assigned_pods σ tp tps
      else match σ !! l with
           | Some that => that :: assigned_pods σ tp tps
           | None => assigned_pods σ tp tps
           end
  end.
Proof.
  unfold assigned_pods, non_nil. destruct a as [l|]; [|done]. simpl.
  case_decide; [done|]. by destruct (σ !! l).
Qed.

(** With a receiver the store holds nothing at, [Assign] writes nothing. *)
Lemma Assign_unallocated σ tp tps :
  σ !! tp = None → TransformPod.Assign σ tp tps = σ.
Proof.
  intros Htp. unfold TransformPod.Assign.
  induction tps as [|[l|] tps IH]; cbn [foldl]; [done| |done].
  by rewrite Htp.
Qed.

(** [Assign] writes to the receiver only, and what it leaves there is the
    receiver after the loop body has run with the pods it takes values
    from; an argument that is the receiver itself contributes nothing. *)
Lemma Assign_store σ tp tps this :
  σ !! tp = Some this →
  TransformPod.Assign σ tp tps =
  <[tp := foldl TransformPod.Assign_one this (assigned_pods σ tp tps)]> σ.
Proof.
  unfold TransformPod.Assign. revert σ this.
  induction tps as [|[l|] tps IH]; intros σ this Htp; cbn [foldl].
  - by rewrite insert_id.
  - rewrite Htp, assigned_pods_cons.
    destruct (decide (l = tp)) as [->|Hl].
    + rewrite Htp, Assign_one_self, insert_id by done. by apply IH.
    + destruct (σ !! l) as [that|] eqn:Hthat; [|by apply IH].
      rewrite (IH _ (TransformPod.Assign_one this that))
        by apply lookup_insert_eq.
      by rewrite insert_insert_eq, assigned_pods_insert.
  - by apply IH.
Qed.

(** X15. [Assign] writes to the receiver only.  Afterwards every field of
    the receiver but [Structure] holds the value of the last argument,
    nil pointers and the receiver itself aside, in which that field is not
    empty (not nil), and its old value when there is no such argument;
    [Structure] is never assigned. *)
Theorem TransformPod_Assign_last_wins σ (tp : nat) (tps : list (option nat))
    this :
  σ !! tp = Some this →
  let ts := assigned_pods σ tp tps in
  ∃ r,
    TransformPod.Assign σ tp tps = <[tp := r]> σ ∧
    TransformPod.Config r =
      last_non_nil (TransformPod.Config <$> ts) (TransformPod.Config this) ∧
    TransformPod.TransformPath r =
      last_non_empty (TransformPod.TransformPath <$> ts)
        (TransformPod.TransformPath this) ∧
    TransformPod.Path r =
      last_non_empty (TransformPod.Path <$> ts) (TransformPod.Path this) ∧
    TransformPod.Qri r =
      last_non_empty (TransformPod.Qri <$> ts) (TransformPod.Qri this) ∧
    TransformPod.Resources r =
      last_non_nil (TransformPod.Resources <$> ts)
        (TransformPod.Resources this) ∧
    TransformPod.Secrets r =
      last_non_nil (TransformPod.Secrets <$> ts)
        (TransformPod.Secrets this) ∧
    TransformPod.ScriptPath r =
      last_non_empty (TransformPod.ScriptPath <$> ts)
        (TransformPod.ScriptPath this) ∧
    TransformPod.ScriptBytes r =
      last_non_nil (TransformPod.ScriptBytes <$> ts)
        (TransformPod.ScriptBytes this) ∧
    TransformPod.Syntax r =
      last_non_empty (TransformPod.Syntax <$> ts)
        (TransformPod.Syntax this) ∧
    TransformPod.SyntaxVersion r =
      last_non_empty (TransformPod.SyntaxVersion <$> ts)
        (TransformPod.SyntaxVersion this) ∧
    TransformPod.Structure r = TransformPod.Structure this.
Proof.
  intros Htp ts. eexists. split; [by apply Assign_store|].
  apply Assign_fields.
Qed.

(** X16. Assigning the same pods a second time changes nothing, also when
    the receiver is among them. *)
Theorem TransformPod_Assign_idempotent σ (tp : nat)
    (tps : list (option nat)) :
  TransformPod.Assign (TransformPod.Assign σ tp tps) tp tps =
  TransformPod.Assign σ tp tps.
Proof.
  destruct (σ !! tp) as [this|] eqn:Htp.
  - rewrite (Assign_store σ tp tps this) by done.
    rewrite (Assign_store _ tp tps
               (foldl TransformPod.Assign_one this (assigned_pods σ tp tps)))
      by apply lookup_insert_eq.
    by rewrite assigned_pods_insert, foldl_Assign_one_idem, insert_insert_eq.
  - rewrite (Assign_unallocated σ tp tps) by done.
    by apply Assign_unallocated.
Qed.
End pod_assign.

(* ===================================================================== *)
(** ** [Transform.Assign] *)
(* ===================================================================== *)

Section transform_assign.
Context {Structure Reader : Type}.
Context (Structure_zero : Structure).
Context (Structure_Assign : Structure → Structure → Structure).
Implicit Types (q : Transform.t Structure Reader).

Local Abbreviation Assign := (Transform.Assign Structure_zero Structure_Assign).
Local Abbreviation Assign_one := (Transform.Assign_one Structure_zero Structure_Assign).

Lemma merge_map_lookup {V} (mine : option (gmap string V))
    (theirs : gmap string V) :
  ∃ m,
    Transform.merge_map mine (Some theirs) = Some m ∧
    ∀ key,
      m !! key =
      match theirs !! key with
      | Some val => Some val
      | None => default ∅ mine !! key
      end.
Proof.
  unfold Transform.merge_map. eexists. split; [done|].
  apply (map_fold_weak_ind (λ r m, ∀ key, r !! key = match m !! key with
    | Some val => Some val
    | None => default ∅ mine !! key
    end)).
  - intros key. by rewrite lookup_empty.
  - intros k v m r Hfresh IH key. destruct (decide (key = k)) as [->|Hne].
    + by rewrite !lookup_insert_eq.
    + by rewrite !lookup_insert_ne.
Qed.

(** X17. Assigning a transform merges its [Config] and its [Resources] into the
    receiver's key by key: a key of the assigned map takes the assigned
    value, every other key keeps the receiver's value, and no key is lost;
    an assigned nil map leaves the receiver's map as it is.  [Script] is
    never assigned. *)
Theorem Transform_Assign_merges_maps q q2 :
  let r := Assign q [Some q2] in
  (∀ c2, Transform.Config q2 = Some c2 →
     ∃ c, Transform.Config r = Some c ∧
          ∀ key, c !! key =
                 match c2 !! key with
                 | Some val => Some val
                 | None => default ∅ (Transform.Config q) !! key
                 end) ∧
  (Transform.Config q2 = None → Transform.Config r = Transform.Config q) ∧
  (∀ r2, Transform.Resources q2 = Some r2 →
     ∃ rs, Transform.Resources r = Some rs ∧
           ∀ key, rs !! key =
                  match r2 !! key with
                  | Some val => Some val
                  | None => default ∅ (Transform.Resources q) !! key
                  end) ∧
  (Transform.Resources q2 = None →
   Transform.Resources r = Transform.Resources q) ∧
  Transform.Script r = Transform.Script q.
Proof.
  cbn zeta. unfold Transform.Assign. cbn [foldl].
  cbn [Transform.Assign_one Transform.Config Transform.Resources
       Transform.Script].
  split; [|split; [|split; [|split]]].
  - intros c2 ->. apply merge_map_lookup.
  - by intros ->.
  - intros r2 ->. apply merge_map_lookup.
  - by intros ->.
  - done.
Qed.

Lemma set_if_not_empty_empty mine theirs :
  bool_decide (Transform.set_if_not_empty mine theirs = "") =
  bool_decide (mine = "") && bool_decide (theirs = "").
Proof.
  unfold Transform.set_if_not_empty. case_decide as Ht; subst.
  - by rewrite (bool_decide_true ("" = "")), andb_true_r.
  - by rewrite (bool_decide_false (theirs = "")), andb_false_r.
Qed.

Lemma merge_map_nil {V} (mine theirs : option (gmap string V)) :
  bool_decide (Transform.merge_map mine theirs = None) =
  bool_decide (mine = None) && bool_decide (theirs = None).
Proof. by destruct mine, theirs. Qed.

Lemma merge_map_is_nil {V} (mine theirs : option (gmap string V)) :
  match Transform.merge_map mine theirs with None => true | Some _ => false end
  = match mine with None => true | Some _ => false end &&
    match theirs with None => true | Some _ => false end.
Proof. by destruct mine, theirs. Qed.

Lemma IsEmpty_Assign_one q q2 :
  Transform.IsEmpty (Assign_one q q2) =
  Transform.IsEmpty q && Transform.IsEmpty q2.
Proof.
  unfold Transform.IsEmpty.
  cbn [Transform.Assign_one Transform.ScriptPath Transform.Resources
       Transform.Syntax Transform.SyntaxVersion Transform.Structure_
       Transform.Config].
  rewrite !set_if_not_empty_empty, merge_map_nil, merge_map_is_nil.
  replace (match
             match Transform.Structure_ q2 with
             | Some st2 =>
                 Some (Structure_Assign
                         (default Structure_zero (Transform.Structure_ q)) st2)
             | None => Transform.Structure_ q
             end
           with None => true | Some _ => false end)
    with (match Transform.Structure_ q with None => true | Some _ => false end
          && match Transform.Structure_ q2 with
             | None => true | Some _ => false end)
    by (by destruct (Transform.Structure_ q), (Transform.Structure_ q2)).
  generalize (bool_decide (Transform.ScriptPath q = ""))
    (bool_decide (Transform.ScriptPath q2 = ""))
    (bool_decide (Transform.Resources q = None))
    (bool_decide (Transform.Resources q2 = None))
    (bool_decide (Transform.Syntax q = ""))
    (bool_decide (Transform.Syntax q2 = ""))
    (bool_decide (Transform.SyntaxVersion q = ""))
    (bool_decide (Transform.SyntaxVersion q2 = "")).
  intros a1 b1 a2 b2 a3 b3 a4 b4.
  destruct (Transform.Structure_ q), (Transform.Structure_ q2),
    (Transform.Config q), (Transform.Config q2), a1, b1, a2, b2, a3, b3, a4, b4;
    reflexivity.
Qed.

(** X18. The result of [Assign] is empty exactly when the receiver and every
    assigned transform (nil ones aside) are empty; so a transform that
    holds or was assigned any content is never marshalled as a bare path. *)
Theorem Transform_Assign_IsEmpty q (qs : list (option (Transform.t Structure Reader))) :
  Transform.IsEmpty (Assign q qs) =
    Transform.IsEmpty q && forallb Transform.IsEmpty (non_nil qs) ∧
  Transform.marshals_as_path (Assign q qs) =
    negb (bool_decide (Transform.path (Assign q qs) = "")) &&
    Transform.IsEmpty q && forallb Transform.IsEmpty (non_nil qs).
Proof.
  assert (Transform.IsEmpty (Assign q qs) =
          Transform.IsEmpty q && forallb Transform.IsEmpty (non_nil qs))
    as Hempty.
  { revert q. induction qs as [|[q2|] qs IH]; intros q.
    - simpl. by rewrite andb_true_r.
    - unfold Transform.Assign in *. cbn [foldl].
      rewrite IH, IsEmpty_Assign_one.
      change (non_nil (Some q2 :: qs)) with (q2 :: non_nil qs).
      cbn [forallb]. by rewrite andb_assoc.
    - unfold Transform.Assign in *. cbn [foldl]. apply IH. }
  split; [done|].
  unfold Transform.marshals_as_path. by rewrite Hempty, andb_assoc.
Qed.
End transform_assign.

(* ===================================================================== *)
(** ** Further properties at concrete inputs *)
(* ===================================================================== *)

Lemma leaf_count_counts_own_values_witness :
  leaf_count (foldl AddEntry (newStatGenerator (VString "a")) mixedEntries) =
  Some 2%Z.
Proof.
  apply (leaf_count_counts_own_values (newStatGenerator (VString "a")) 0
           mixedEntries).
  - reflexivity.
  - rewrite minInt_value, maxInt_value. lia.
Defined.

Lemma unsupported_type_is_never_counted_witness :
  Stats (foldl AddEntry (newStatGenerator (VOther "int64"))
           [mkEntry 0 "" (VOther "int64"); mkEntry 1 "" (VInt 7)]) =
  count_alone 0.
Proof.
  apply (unsupported_type_is_never_counted "int64").
  repeat constructor; simpl; discriminate.
Defined.

Lemma numeric_sentinel_survives_witness :
  ∃ g',
    foldl AddEntry (newStatGenerator (VFloat64 1e19)) [hugeEntry] =
      numericSG g' ∧
    numericStatGenerator.min g' = Float64.of_int GoInt.maxInt.
Proof.
  destruct (numeric_sentinel_survives (VFloat64 1e19) [hugeEntry] eq_refl)
    as (g' & Hg' & Hmin & _).
  exists g'. split; [exact Hg'|]. apply Hmin.
  apply Forall_cons. split; [vm_compute; reflexivity|apply Forall_nil; exact I].
Defined.

Lemma object_loop_order_irrelevant_witness :
  object_loop_in_order (λ key v sg, AddEntry sg (mkEntry 0 key v))
    (reverse (map_to_list twoFields)) ∅ =
  map_fold (λ key val ch,
              object_step (λ v sg, AddEntry sg (mkEntry 0 key v)) key val ch)
    ∅ twoFields.
Proof.
  apply (object_loop_order_irrelevant
           (λ key v sg, AddEntry sg (mkEntry 0 key v)) twoFields).
  apply reverse_Permutation.
Defined.

Lemma children_keep_variant_witness :
  ∃ children' child',
    AddEntry (objectSG {[ "n" := newStatGenerator (VInt 1) ]})
      (objectEntry 0 {[ "n" := VString "one" ]}) = objectSG children' ∧
    children' !! "n" = Some child' ∧
    variant child' = NumericV.
Proof.
  apply (proj1 (children_keep_variant
                  (objectEntry 0 {[ "n" := VString "one" ]})
                  (newStatGenerator (VInt 1)))
           {[ "n" := newStatGenerator (VInt 1) ]} "n").
  vm_compute. reflexivity.
Defined.

Lemma array_loop_never_out_of_range_witness :
  ∃ children',
    array_loop_checked (λ i v sg, AddEntry sg (mkEntry (Z.of_nat i) "" v))
      0 [VInt 1; VNil; VString "a"] [newStatGenerator (VInt 0)] =
      Some children' ∧
    AddEntry (arraySG [newStatGenerator (VInt 0)])
      (mkEntry 0 "" (VArray [VInt 1; VNil; VString "a"])) = arraySG children'.
Proof.
  apply (array_loop_never_out_of_range [newStatGenerator (VInt 0)]
           (mkEntry 0 "" (VArray [VInt 1; VNil; VString "a"]))).
  reflexivity.
Defined.


Lemma stats_and_close_return_after_first_entry_witness :
  let run := dsio.ReadEntries BasicStatsGenerator.ReadEntry 1
               (NewBasicStatsGenerator (sliceReader fiveEntries)).1 in
  ∃ sg,
    BasicStatsGenerator.stats run.2 = Some sg ∧
    BasicStatsGenerator.Stats run.2 = Returned (Stats sg) ∧
    BasicStatsGenerator.Close run.2 =
      Returned ((dsio.Close (BasicStatsGenerator.r run.2)).1,
                {| BasicStatsGenerator.r :=
                     (dsio.Close (BasicStatsGenerator.r run.2)).2;
                   BasicStatsGenerator.stats := Some sg |}).
Proof.
  intros run.
  apply (stats_and_close_return_after_first_entry
           (sliceReader fiveEntries) 1 run.1 run.2).
  - apply surjective_pairing.
  - vm_compute. eexists. reflexivity.
Defined.

Lemma Transform_Assign_merges_maps_witness :
  ∃ c,
    Transform.Config
      (Transform.Assign () (λ _ _, ()) refTransform [Some scriptTransform]) =
      Some c ∧
    c !! "key" = Some (VInt 1).
Proof.
  destruct (proj1 (Transform_Assign_merges_maps () (λ _ _, ())
                     refTransform scriptTransform)
              {[ "key" := VInt 1 ]} eq_refl) as (c & Hc & Hlookup).
  exists c. split; [exact Hc|]. rewrite Hlookup. vm_compute. reflexivity.
Defined.

Lemma TransformPod_Assign_last_wins_witness :
  ∃ r,
    TransformPod.Assign twoPods 0 [Some 1; Some 0] = <[0 := r]> twoPods ∧
    TransformPod.Path r = "/new".
Proof.
  assert (twoPods !! 0 = Some (pathPod "/old")) as Hreceiver.
  { vm_compute. reflexivity. }
  destruct (TransformPod_Assign_last_wins twoPods 0 [Some 1; Some 0]
              (pathPod "/old") Hreceiver)
    as (r & Hr & _ & _ & Hpath & _).
  exists r. split; [exact Hr|]. rewrite Hpath. vm_compute. reflexivity.
Defined.
